(** * Host software reconciliation (package mysql, software.go) and pack
    conversion (package main, convert.go)

    A shallow embedding of the datastore code that synchronises the software
    a host reports with the [software] catalog and the [host_software] join
    table, and the properties of it that the specification states.

    Go strings are byte strings: they are modelled as [string], one [ascii]
    per byte.  [uint] and [int64] values are modelled as [Z].  Go maps are
    [gmap]s.  The relational store behind [sqlx] is modelled by the tables
    the statements of this file touch, an environment script that decides
    which statements fail and which catalog rows other sessions commit in
    between, and a trace of the statements sent. *)

From Stdlib Require Import ZArith Lia String Ascii List.
From stdpp Require Import base option list strings gmap.

Local Open Scope string_scope.
Local Open Scope list_scope.
Local Open Scope Z_scope.

(** ** Strings *)

Module GoStrings.

(** The one byte of the Go literal ["\u0000"]. *)
Definition NUL : ascii := Ascii.zero.

Definition nul : string := String NUL EmptyString.

(** [strings.Join(elems, sep)]. *)
Fixpoint Join (elems : list string) (sep : string) : string :=
  match elems with
  | [] => EmptyString
  | x :: rest =>
      match rest with
      | [] => x
      | _ :: _ => x +:+ sep +:+ Join rest sep
      end
  end.

(** [strings.Split(s, sep)] for a separator of one byte: the pieces of [s]
    between the occurrences of [sep], one more than there are
    occurrences. *)
Fixpoint Split (s : string) (sep : ascii) : list string :=
  match s with
  | EmptyString => [EmptyString]
  | String c s' =>
      if Ascii.eqb c sep then EmptyString :: Split s' sep
      else match Split s' sep with
           | p :: ps => String c p :: ps
           | [] => [String c EmptyString]
           end
  end.

(** Number of bytes of [s] equal to [c]. *)
Fixpoint count (c : ascii) (s : string) : nat :=
  match s with
  | EmptyString => 0%nat
  | String a s' => ((if Ascii.eqb a c then 1 else 0) + count c s')%nat
  end.

(** [s] holds no byte [c]. *)
Definition free_of (c : ascii) (s : string) : Prop := count c s = 0%nat.

(** [len(s)], an [int]. *)
Definition len (s : string) : Z := Z.of_nat (String.length s).

End GoStrings.

Import GoStrings.

(** ** The key codec *)

(** [fleet.Software]. *)
Record Software := mkSoftware {
  ID : Z;
  Name : string;
  Version : string;
  Source : string
}.

Definition maxSoftwareNameLen : Z := 255.
Definition maxSoftwareVersionLen : Z := 255.
Definition maxSoftwareSourceLen : Z := 64.

(** [truncateString].  The slice expression [str[:length]] panics for a
    negative length argument [limit]; [None] stands for that panic. *)
Definition truncateString (str : string) (limit : Z) : option string :=
  if len str >? limit then
    if limit <? 0 then None
    else Some (String.substring 0 (Z.to_nat limit) str)
  else Some str.

Definition softwareToUniqueString (s : Software) : string :=
  Join [Name s; Version s; Source s] nul.

(** [uniqueStringToSoftware].  [None] stands for the run-time panic of an
    index out of range (or of a slice out of range). *)
Definition uniqueStringToSoftware (s : string) : option Software :=
  let parts := Split s NUL in
  p0 ← parts !! 0%nat;
  name ← truncateString p0 maxSoftwareNameLen;
  p1 ← parts !! 1%nat;
  version ← truncateString p1 maxSoftwareVersionLen;
  p2 ← parts !! 2%nat;
  source ← truncateString p2 maxSoftwareSourceLen;
  Some {| ID := 0; Name := name; Version := version; Source := source |}.

Definition softwareSliceToSet (softwares : list Software) : gmap string bool :=
  foldl (fun result s => <[softwareToUniqueString s := true]> result) ∅ softwares.

Definition softwareSliceToIdMap (softwareSlice : list Software) : gmap string Z :=
  foldl (fun result s => <[softwareToUniqueString s := ID s]> result) ∅ softwareSlice.

(** ** The set differ *)

Definition nothingChanged (current incoming : list Software) : bool :=
  if negb (Nat.eqb (length current) (length incoming)) then false
  else
    let currentBitmap :=
      foldl (fun m s => <[softwareToUniqueString s := true]> m)
            (∅ : gmap string bool) current in
    forallb (fun s => bool_decide (is_Some (currentBitmap !! softwareToUniqueString s)))
            incoming.

(** ** The store *)

(** Go [error] values: what the driver reports, and [errors.Wrap]. *)
Inductive error : Type :=
| StoreError (transient : bool) (msg : string)
| Wrap (cause : error) (message : string).

(** Outcome of a call: a value, an error return, or a run-time panic. *)
Inductive result (A : Type) : Type :=
| Ok (a : A)
| Err (e : error)
| Panic.
Arguments Ok {A} a.
Arguments Err {A} e.
Arguments Panic {A}.

(** The two tables.  [software] holds the catalog rows, unique on
    (name, version, source); [host_software] holds the pairs
    (host_id, software_id), unique, [software_id] referencing [software]. *)
Record Store := mkStore {
  software : list Software;
  host_software : list (Z * Z)
}.

(** The statements of this file. *)
Inductive stmt : Type :=
| SelectSoftwareId (name version source : string)
| InsertIgnoreSoftware (name version source : string)
| DeleteHostSoftware (host_id : Z)
| DeleteHostSoftwareIn (args : list Z)
| InsertHostSoftware (args : list Z)
| SelectHostSoftware (host_id : Z).

(** What goes over the connection, in order. *)
Inductive action : Type :=
| Begin
| Stmt (s : stmt)
| Commit
| Rollback.

(** What the environment does at one round trip: the catalog rows other
    sessions commit just before it, and whether it fails. *)
Record event := mkEvent {
  concurrent : list Software;
  fault : option error
}.

Definition quiet : event := {| concurrent := []; fault := None |}.

(** A [*sqlx.Tx]: the handle of the open transaction. *)
Inductive Tx : Type := TxHandle.

(** The state behind a [*Datastore]: the committed tables, the working copy
    of the open transaction (if any), the AUTO_INCREMENT counter of
    [software], the script of the events to come and the trace so far. *)
Record State := mkState {
  db : Store;
  view : option Store;
  auto_increment : Z;
  script : list event;
  trace : list action
}.

Definition M (A : Type) : Type := State -> result A * State.

Definition ret {A} (a : A) : M A := fun st => (Ok a, st).

Definition bind {A B} (m : M A) (k : A -> M B) : M B :=
  fun st =>
    match m st with
    | (Ok a, st') => k a st'
    | (Err e, st') => (Err e, st')
    | (Panic, st') => (Panic, st')
    end.

Definition fail {A} (e : error) : M A := fun st => (Err e, st).

Notation "'do' x <- m ; k" := (bind m (fun x => k))
  (at level 10, x name, m at level 100, k at level 200).
Notation "m ;; k" := (bind m (fun _ => k))
  (at level 100, k at level 200, right associativity).

(** [errors.Wrap(err, message)] on the error path of a call. *)
Definition wrapErr {A} (m : M A) (message : string) : M A :=
  fun st =>
    match m st with
    | (Err e, st') => (Err (Wrap e message), st')
    | r => r
    end.

(** A value that may have panicked. *)
Definition orPanic {A} (o : option A) : M A :=
  fun st => match o with Some a => (Ok a, st) | None => (Panic, st) end.

Definition sameTriple (name version source : string) (row : Software) : bool :=
  bool_decide (Name row = name) && bool_decide (Version row = version)
  && bool_decide (Source row = source).

Definition addSoftware (row : Software) (s : Store) : Store :=
  {| software := software s ++ [row]; host_software := host_software s |}.

Definition setHostSoftware (rows : list (Z * Z)) (s : Store) : Store :=
  {| software := software s; host_software := rows |}.

(** The tables a statement sees: the working copy of the open transaction,
    the committed tables outside one. *)
Definition current (st : State) : Store := default (db st) (view st).

(** A write goes to the working copy of the open transaction, and to the
    committed tables outside one. *)
Definition write (f : Store -> Store) (st : State) : State :=
  match view st with
  | Some v => mkState (db st) (Some (f v)) (auto_increment st) (script st) (trace st)
  | None => mkState (f (db st)) None (auto_increment st) (script st) (trace st)
  end.

Definition bump (st : State) : State :=
  mkState (db st) (view st) (auto_increment st + 1) (script st) (trace st).

Definition log (a : action) (st : State) : State :=
  mkState (db st) (view st) (auto_increment st) (script st) (trace st ++ [a]).

(** Another session commits the catalog row of [t]: a no-op when the triple
    is there already; otherwise the row is committed, and visible to the
    open transaction too. *)
Definition commitElsewhere (st : State) (t : Software) : State :=
  if existsb (sameTriple (Name t) (Version t) (Source t)) (software (current st))
  then st
  else
    let row := {| ID := auto_increment st; Name := Name t;
                  Version := Version t; Source := Source t |} in
    mkState (addSoftware row (db st)) (addSoftware row <$> view st)
            (auto_increment st + 1) (script st) (trace st).

(** One round trip: the environment's next event happens, the action is
    recorded, and the call fails if the event says so. *)
Definition roundTrip (a : action) : M unit :=
  fun st =>
    let e := hd quiet (script st) in
    let st1 := mkState (db st) (view st) (auto_increment st)
                       (tl (script st)) (trace st) in
    let st2 := log a (foldl commitElsewhere st1 (concurrent e)) in
    match fault e with
    | Some err => (Err err, st2)
    | None => (Ok tt, st2)
    end.

(** [sql.Result] *)
Record sqlResult := mkResult {
  lastInsertId : Z;
  rowsAffected : Z
}.

(** [result.LastInsertId()]: the driver reports the id of the OK packet and
    no error. *)
Definition LastInsertId (r : sqlResult) : M Z := ret (lastInsertId r).

(** [SELECT id FROM software WHERE name = ? and version = ? and source = ?] *)
Definition selectSoftwareId (name version source : string) : M (list Z) :=
  roundTrip (Stmt (SelectSoftwareId name version source)) ;;
  fun st => (Ok (ID <$> filter (fun r => sameTriple name version source r = true)
                                (software (current st))), st).

(** [INSERT IGNORE INTO software (name, version, source) VALUES (?, ?, ?)]:
    on a duplicate triple nothing is written, no error is raised and the OK
    packet carries insert id 0. *)
Definition insertIgnoreSoftware (name version source : string) : M sqlResult :=
  roundTrip (Stmt (InsertIgnoreSoftware name version source)) ;;
  fun st =>
    if existsb (sameTriple name version source) (software (current st))
    then (Ok {| lastInsertId := 0; rowsAffected := 0 |}, st)
    else
      let id := auto_increment st in
      let row := {| ID := id; Name := name; Version := version; Source := source |} in
      (Ok {| lastInsertId := id; rowsAffected := 1 |},
       bump (write (addSoftware row) st)).

(** [DELETE FROM host_software WHERE host_id = ?] *)
Definition deleteHostSoftware (host_id : Z) : M unit :=
  roundTrip (Stmt (DeleteHostSoftware host_id)) ;;
  fun st =>
    (Ok tt,
     write (fun s => setHostSoftware
                       (filter (fun r => r.1 ≠ host_id) (host_software s)) s) st).

Definition errMalformed : error := StoreError false "malformed statement".
Definition errDuplicateEntry : error := StoreError false "duplicate entry".
Definition errForeignKey : error := StoreError false "foreign key constraint fails".

(** [DELETE FROM host_software WHERE host_id = ? AND software_id IN (?,...)]
    with the arguments [args]: the host id, then the identifiers. *)
Definition deleteHostSoftwareIn (args : list Z) : M unit :=
  roundTrip (Stmt (DeleteHostSoftwareIn args)) ;;
  match args with
  | host_id :: (_ :: _) as ids =>
      fun st =>
        (Ok tt,
         write (fun s => setHostSoftware
                  (filter (fun r => ¬ (r.1 = host_id ∧ r.2 ∈ ids)) (host_software s)) s)
               st)
  | _ => fail errMalformed
  end.

(** The value tuples [(?,?)] of a flat argument list. *)
Fixpoint tuples (args : list Z) : list (Z * Z) :=
  match args with
  | h :: i :: rest => (h, i) :: tuples rest
  | _ => []
  end.

(** [INSERT INTO host_software (host_id, software_id) VALUES (?,?),...]:
    fails, writing nothing, on a pair that is there already or twice among
    the values, and on an identifier that is not in the catalog. *)
Definition insertHostSoftware (args : list Z) : M unit :=
  roundTrip (Stmt (InsertHostSoftware args)) ;;
  fun st =>
    let rows := tuples args in
    let s := current st in
    if bool_decide (NoDup (host_software s ++ rows)) then
      if forallb (fun r => bool_decide (r.2 ∈ (ID <$> software s))) rows then
        (Ok tt, write (fun s => setHostSoftware (host_software s ++ rows) s) st)
      else (Err errForeignKey, st)
    else (Err errDuplicateEntry, st).

(** [SELECT * FROM software WHERE id IN
      (SELECT software_id FROM host_software WHERE host_id = ?)],
    sent inside the transaction [tx] or, for [nil], on the connection. *)
Definition selectHostSoftware (tx : option Tx) (id : Z) : M (list Software) :=
  roundTrip (Stmt (SelectHostSoftware id)) ;;
  fun st =>
    let s := match tx with Some _ => current st | None => db st end in
    (Ok (filter (fun r => (id, ID r) ∈ host_software s) (software s)), st).

(** ** Transactions *)

(** [*Datastore], with the retry policy of its transactions: [retries] is
    the number of times a transaction body is run again after its first
    run (the specification fixes an attempt count and leaves its value
    open). *)
Record Datastore := mkDatastore {
  retries : nat
}.

Fixpoint retryableError (e : error) : bool :=
  match e with
  | StoreError transient _ => transient
  | Wrap cause _ => retryableError cause
  end.

Definition openTx (st : State) : State :=
  mkState (db st) (Some (db st)) (auto_increment st) (script st) (trace st).

Definition closeTx (keep : bool) (st : State) : State :=
  mkState (if keep then current st else db st) None
          (auto_increment st) (script st) (trace st).

Definition rollback (st : State) : State := log Rollback (closeTx false st).

(** Modelled from the spec: one run of the transaction body of
    [withRetryTxx], which is not among the sources: begin, the body, then
    commit, or roll back when the body or the commit failed. *)
Definition runTx (fn : Tx -> M unit) : M unit :=
  fun st =>
    match wrapErr (roundTrip Begin) "create transaction" st with
    | (Ok _, st0) =>
        match fn TxHandle (openTx st0) with
        | (Ok _, st1) =>
            match wrapErr (roundTrip Commit) "commit transaction" st1 with
            | (Ok _, st2) => (Ok tt, closeTx true st2)
            | (r, st2) => (r, rollback st2)
            end
        | (r, st1) => (r, rollback st1)
        end
    | r => r
    end.

(** Modelled from the spec: the retry loop of [withRetryTxx], with [n] runs
    left after the next one.  A run that fails with a transient error of
    the store is followed by another run while runs are left. *)
Fixpoint retryTx (n : nat) (fn : Tx -> M unit) : M unit :=
  fun st =>
    match runTx fn st with
    | (Err e, st') =>
        match n with
        | S n' => if retryableError e then retryTx n' fn st' else (Err e, st')
        | O => (Err e, st')
        end
    | r => r
    end.

(** Modelled from the spec: [withRetryTxx] is not among the sources.  Per
    the specification it opens a transaction with a bounded retry policy: on
    a transient conflict from the store the entire transaction body is run
    again, up to a fixed attempt count; any other error, and the last error
    once the attempts are used up, goes to the caller. *)
Definition withRetryTxx (d : Datastore) (fn : Tx -> M unit) : M unit :=
  retryTx (retries d) fn.

(** ** The host aggregate *)

(** [fleet.HostSoftware] *)
Record HostSoftware := mkHostSoftware {
  HostSoftware_Software : list Software;
  Modified : bool
}.

(** [fleet.Host], with the fields this file reads. *)
Record Host := mkHost {
  Host_ID : Z;
  Host_HostSoftware : HostSoftware
}.

(** ** The datastore methods *)

(** The conversions [uint(x)] of an [int64]. *)
Definition uint (x : Z) : Z := x mod 2 ^ 64.

Definition hostSoftwareFromHostID (tx : option Tx) (id : Z) : M (list Software) :=
  wrapErr (selectHostSoftware tx id) "load host software".

Definition getOrGenerateSoftwareId (tx : Tx) (s : Software) : M Z :=
  do existingId <- selectSoftwareId (Name s) (Version s) (Source s);
  match existingId with
  | id0 :: _ => ret (uint id0)
  | [] =>
      do result <- wrapErr (insertIgnoreSoftware (Name s) (Version s) (Source s))
                           "insert software";
      do id <- wrapErr (LastInsertId result) "last id from software";
      ret (uint id)
  end.

(** The keys of a Go map in the order the [range] loop visits them.  Go
    leaves that order open; the model fixes one. *)
Definition rangeKeys {V} (m : gmap string V) : list string := (map_to_list m).*1.

(** The argument list the loop of [deleteUninstalledHostSoftware] builds
    from [start] over the keys [ks]. *)
Definition collectDeletes (currentIdmap : gmap string Z)
    (incomingBitmap : gmap string bool) (start : list Z) (ks : list string) : list Z :=
  foldl (fun (deletes : list Z) currentKey =>
           match incomingBitmap !! currentKey with
           | Some _ => deletes
           | None => deletes ++ [default 0 (currentIdmap !! currentKey)]
           end) start ks.

Definition deleteUninstalledHostSoftware (tx : Tx) (hostID : Z)
    (currentIdmap : gmap string Z) (incomingBitmap : gmap string bool) : M unit :=
  let deletesHostSoftware :=
    collectDeletes currentIdmap incomingBitmap [hostID] (rangeKeys currentIdmap) in
  if (length deletesHostSoftware <=? 1)%nat then ret tt
  else wrapErr (deleteHostSoftwareIn deletesHostSoftware) "delete host software".

(** The loop of [insertNewInstalledHostSoftware] over the keys still to
    visit, with the arguments collected so far. *)
Fixpoint collectInserts (tx : Tx) (hostID : Z) (currentIdmap : gmap string Z)
    (keys : list string) (insertsHostSoftware : list Z) : M (list Z) :=
  match keys with
  | [] => ret insertsHostSoftware
  | s :: rest =>
      match currentIdmap !! s with
      | Some _ => collectInserts tx hostID currentIdmap rest insertsHostSoftware
      | None =>
          do sw <- orPanic (uniqueStringToSoftware s);
          do id <- getOrGenerateSoftwareId tx sw;
          collectInserts tx hostID currentIdmap rest
                         (insertsHostSoftware ++ [hostID; id])
      end
  end.

Definition insertNewInstalledHostSoftware (tx : Tx) (hostID : Z)
    (currentIdmap : gmap string Z) (incomingBitmap : gmap string bool) : M unit :=
  do insertsHostSoftware <-
    collectInserts tx hostID currentIdmap (rangeKeys incomingBitmap) [];
  if (0 <? length insertsHostSoftware)%nat then
    wrapErr (insertHostSoftware insertsHostSoftware) "insert host software"
  else ret tt.

Definition applyChangesForNewSoftware (tx : Tx) (host : Host) : M unit :=
  do storedCurrentSoftware <-
    wrapErr (hostSoftwareFromHostID (Some tx) (Host_ID host))
            "loading current software for host";
  if nothingChanged storedCurrentSoftware
                    (HostSoftware_Software (Host_HostSoftware host))
  then ret tt
  else
    let current := softwareSliceToIdMap storedCurrentSoftware in
    let incoming := softwareSliceToSet (HostSoftware_Software (Host_HostSoftware host)) in
    deleteUninstalledHostSoftware tx (Host_ID host) current incoming ;;
    insertNewInstalledHostSoftware tx (Host_ID host) current incoming ;;
    ret tt.

(** The function literal that [SaveHostSoftware] hands to [withRetryTxx]. *)
Definition saveBody (host : Host) (tx : Tx) : M unit :=
  if (length (HostSoftware_Software (Host_HostSoftware host)) =? 0)%nat then
    wrapErr (deleteHostSoftware (Host_ID host)) "clear join table entries" ;;
    ret tt
  else
    applyChangesForNewSoftware tx host ;;
    ret tt.

(** [SaveHostSoftware] returns its error and leaves the host it was given a
    pointer to in the state of the second component. *)
Definition SaveHostSoftware (d : Datastore) (host : Host) (st : State)
    : result unit * Host * State :=
  if negb (Modified (Host_HostSoftware host)) then (Ok tt, host, st)
  else
    match wrapErr (withRetryTxx d (saveBody host)) "save host software" st with
    | (Ok _, st') =>
        (Ok tt,
         mkHost (Host_ID host)
                (mkHostSoftware (HostSoftware_Software (Host_HostSoftware host)) false),
         st')
    | (r, st') => (r, host, st')
    end.

Definition LoadHostSoftware (d : Datastore) (host : Host) (st : State)
    : result unit * Host * State :=
  let host1 := mkHost (Host_ID host) (mkHostSoftware [] false) in
  match hostSoftwareFromHostID None (Host_ID host1) st with
  | (Ok software, st') =>
      (Ok tt,
       mkHost (Host_ID host1)
              (mkHostSoftware software (Modified (Host_HostSoftware host1))),
       st')
  | (Err e, st') => (Err e, host1, st')
  | (Panic, st') => (Panic, host1, st')
  end.

(** * Pack conversion (package main, convert.go) *)

Module Convert.

(** The error kinds of [strconv]. *)
Inductive numErrorKind : Type := ErrSyntax | ErrRange.

(** Go [error] values of the conversion: a [*strconv.NumError] for the input
    [num], and [errors.Wrap]. *)
Inductive error : Type :=
| NumError (num : string) (kind : numErrorKind)
| Wrap (cause : error) (message : string).

(** The value of the byte [c] as a decimal digit. *)
Definition digit (c : ascii) : option Z :=
  let n := Z.of_nat (nat_of_ascii c) in
  if (48 <=? n) && (n <=? 57) then Some (n - 48) else None.

Definition maxUint64 : Z := 2 ^ 64 - 1.

(** The largest value of [bitSize] 32. *)
Definition maxVal : Z := 2 ^ 32 - 1.

(** The smallest number such that [cutoff * 10 > maxUint64]. *)
Definition cutoff : Z := maxUint64 / 10 + 1.

(** The loop of [strconv.ParseUint] for base 10 and bit size 32 over the
    bytes still to read, with the [uint64] value [n] read so far.  A byte
    that is no decimal digit is a syntax error with value 0; a value over
    [maxVal] is a range error with value [maxVal]. *)
Fixpoint parseLoop (cs : string) (n : Z) : Z * option numErrorKind :=
  match cs with
  | EmptyString => (n, None)
  | String c rest =>
      match digit c with
      | None => (0, Some ErrSyntax)
      | Some d =>
          if n >=? cutoff then (maxVal, Some ErrRange)
          else
            let n' := (n * 10) mod 2 ^ 64 in
            let n1 := (n' + d) mod 2 ^ 64 in
            if (n1 <? n') || (n1 >? maxVal) then (maxVal, Some ErrRange)
            else parseLoop rest n1
      end
  end.

(** [strconv.ParseUint(s, 10, 32)]. *)
Definition ParseUint (s : string) : Z * option error :=
  match s with
  | EmptyString => (0, Some (NumError s ErrSyntax))
  | _ =>
      match parseLoop s 0 with
      | (v, Some kind) => (v, Some (NumError s kind))
      | (v, None) => (v, None)
      end
  end.

Section Values.

(** Go's [float64] and the conversion [uint(f)] of one are taken as
    given. *)
Variable float64 : Type.
Variable uintOfFloat64 : float64 -> Z.

(** The dynamic type of an [interface{}] value, as the type switch of
    [specGroupFromPack] tells them apart. *)
Inductive dynamic : Type :=
| DString (s : string)
| DUint (u : Z)
| DFloat64 (f : float64)
| DOther.

(** [fleet.PermissiveQueryContent], with the fields that are read. *)
Record PermissiveQueryContent := mkPermissiveQueryContent {
  PermissiveQueryContent_Query : string;
  PermissiveQueryContent_Description : string;
  PermissiveQueryContent_Interval : dynamic;
  PermissiveQueryContent_Platform : option string;
  PermissiveQueryContent_Version : option string;
  PermissiveQueryContent_Shard : option Z;
  PermissiveQueryContent_Snapshot : option bool;
  PermissiveQueryContent_Removed : option bool
}.

(** [fleet.PermissivePackContent], with the field that is read. *)
Record PermissivePackContent := mkPermissivePackContent {
  PermissivePackContent_Queries : gmap string PermissiveQueryContent
}.

(** [fleet.QuerySpec] *)
Record QuerySpec := mkQuerySpec {
  QuerySpec_Name : string;
  QuerySpec_Description : string;
  QuerySpec_Query : string
}.

(** [fleet.PackSpecQuery] *)
Record PackSpecQuery := mkPackSpecQuery {
  PackSpecQuery_QueryName : string;
  PackSpecQuery_Name : string;
  PackSpecQuery_Description : string;
  PackSpecQuery_Interval : Z;
  PackSpecQuery_Snapshot : option bool;
  PackSpecQuery_Removed : option bool;
  PackSpecQuery_Shard : option Z;
  PackSpecQuery_Platform : option string;
  PackSpecQuery_Version : option string
}.

(** [fleet.PackSpec], with the fields that are set. *)
Record PackSpec := mkPackSpec {
  PackSpec_Name : string;
  PackSpec_Queries : list PackSpecQuery
}.

(** [fleet.LabelSpec]; none is ever built here. *)
Record LabelSpec := mkLabelSpec {
  LabelSpec_Name : string
}.

Record specGroup := mkSpecGroup {
  specGroup_Queries : list QuerySpec;
  specGroup_Packs : list PackSpec;
  specGroup_Labels : list LabelSpec
}.

(** The type switch on [query.Interval]: the interval of the pack query, or
    the error that ends the conversion. *)
Definition intervalOf (i : dynamic) : Z + error :=
  match i with
  | DString s =>
      match ParseUint s with
      | (_, Some err) => inr (Wrap err "converting interval from string to uint")
      | (u64, None) => inl u64
      end
  | DUint u => inl u
  | DFloat64 f => inl (uintOfFloat64 f)
  | DOther => inl 0
  end.

(** The loop of [specGroupFromPack] over the queries still to visit, with
    the query specs and the pack queries appended so far. *)
Fixpoint convertQueries (queries : list (string * PermissiveQueryContent))
    (specs : list QuerySpec) (packQueries : list PackSpecQuery)
    : list QuerySpec * list PackSpecQuery + error :=
  match queries with
  | [] => inl (specs, packQueries)
  | (name, query) :: rest =>
      match intervalOf (PermissiveQueryContent_Interval query) with
      | inr err => inr err
      | inl interval =>
          convertQueries rest
            (specs ++ [ {| QuerySpec_Name := name;
                           QuerySpec_Description := PermissiveQueryContent_Description query;
                           QuerySpec_Query := PermissiveQueryContent_Query query |} ])
            (packQueries
             ++ [ {| PackSpecQuery_QueryName := name;
                     PackSpecQuery_Name := name;
                     PackSpecQuery_Description := PermissiveQueryContent_Description query;
                     PackSpecQuery_Interval := interval;
                     PackSpecQuery_Snapshot := PermissiveQueryContent_Snapshot query;
                     PackSpecQuery_Removed := PermissiveQueryContent_Removed query;
                     PackSpecQuery_Shard := PermissiveQueryContent_Shard query;
                     PackSpecQuery_Platform := PermissiveQueryContent_Platform query;
                     PackSpecQuery_Version := PermissiveQueryContent_Version query |} ])
      end
  end.

(** [specGroupFromPack].  The queries are visited in the order of the
    [range] loop over the map, which Go leaves open; the model fixes
    one. *)
Definition specGroupFromPack (name : string) (inputPack : PermissivePackContent)
    : specGroup + error :=
  match convertQueries (map_to_list (PermissivePackContent_Queries inputPack)) [] [] with
  | inr err => inr err
  | inl (specs, packQueries) =>
      inl {| specGroup_Queries := specs;
             specGroup_Packs := [] ++ [ {| PackSpec_Name := name;
                                           PackSpec_Queries := packQueries |} ];
             specGroup_Labels := [] |}
  end.

(** The value of a decimal numeral, read after the value [n]; [None] when a
    byte is no decimal digit. *)
Fixpoint decimalFrom (cs : string) (n : Z) : option Z :=
  match cs with
  | EmptyString => Some n
  | String c rest =>
      match digit c with
      | None => None
      | Some d => decimalFrom rest (10 * n + d)
      end
  end.

(** The value of a decimal numeral that is not empty. *)
Definition decimalValue (s : string) : option Z :=
  match s with
  | EmptyString => None
  | _ => decimalFrom s 0
  end.

(** The query [q] has the string [s] for interval, and [s] is not a decimal
    numeral that is not empty and has a value of at most 4294967295. *)
Definition badInterval (q : PermissiveQueryContent) (s : string) : Prop :=
  PermissiveQueryContent_Interval q = DString s
  /\ ¬ (exists u, decimalValue s = Some u /\ u <= 4294967295).

End Values.

(** A pack of two queries, one with a string for interval and one with a
    [uint]; [float64] is stood in for by [Z]. *)
Definition examplePack : PermissivePackContent Z :=
  mkPermissivePackContent Z
    (list_to_map
       [ ("uptime", mkPermissiveQueryContent Z "select * from uptime" "time up"
                      (DString Z "3600") None None None (Some true) None);
         ("users", mkPermissiveQueryContent Z "select * from users" "accounts"
                     (DUint Z 60) (Some "linux") None None None (Some false)) ]).

(** The same pack with a third query, whose interval is the string "1h". *)
Definition badPack : PermissivePackContent Z :=
  mkPermissivePackContent Z
    (<["hourly" := mkPermissiveQueryContent Z "select * from time" "the time"
                     (DString Z "1h") None None None None None]>
       (PermissivePackContent_Queries Z examplePack)).

End Convert.

(** * The vocabulary of the properties *)

(** ** Codec and differ *)

(** What [truncateString] returns for a limit that is not negative. *)
Definition truncated (str : string) (limit : Z) : string :=
  if len str >? limit then String.substring 0 (Z.to_nat limit) str else str.

(** The dedup keys of a collection, in order. *)
Definition keys (l : list Software) : list string := softwareToUniqueString <$> l.

(** ** What other sessions do to the tables *)

(** The catalog rows [extra] appended to the tables [s]. *)
Definition addRows (extra : list Software) (s : Store) : Store :=
  {| software := software s ++ extra; host_software := host_software s |}.

(** [r] is the row of a triple that some event of [es] commits. *)
Definition fromElsewhere (es : list event) (r : Software) : Prop :=
  exists e t, e ∈ es /\ t ∈ concurrent e
              /\ Name r = Name t /\ Version r = Version t /\ Source r = Source t.

(** From [st] to [st'] the environment alone has touched the tables: it has
    appended the rows [extra] to the catalog, committed and in the open
    transaction alike. *)
Definition elsewhere (extra : list Software) (st st' : State) : Prop :=
  db st' = addRows extra (db st) /\ view st' = addRows extra <$> view st.

(** No event of the script makes a round trip fail. *)
Definition faultFree (es : list event) : Prop := forall e, e ∈ es -> fault e = None.

(** The call [m] returns, with a value or with an error, from every state. *)
Definition noPanic {A} (m : M A) : Prop := forall st, (m st).1 <> Panic.

(** The statements of a trace. *)
Definition statements (tr : list action) : list stmt :=
  omap (fun a => match a with Stmt s => Some s | _ => None end) tr.

(** ** What a save commits *)




(** ** What is persisted for a host *)

(** The software persisted for a host: the catalog rows that the host's
    membership rows reference. *)
Definition persisted (host_id : Z) (s : Store) : list Software :=
  filter (fun r => (host_id, ID r) ∈ host_software s) (software s).

(** The tables [s] without the membership rows of the host. *)
Definition cleared (host_id : Z) (s : Store) : Store :=
  setHostSoftware (filter (fun r => r.1 ≠ host_id) (host_software s)) s.

(** ** Invariants of the tables *)

(** The triple that identifies a catalog row. *)
Definition tripleOf (r : Software) : string * string * string :=
  (Name r, Version r, Source r).

(** No two catalog rows of [s] have the same triple. *)
Definition uniqueTriples (s : Store) : Prop := NoDup (tripleOf <$> software s).

(** The call [m] keeps the property [P] of the state, however it returns. *)
Definition keeps {A} (P : State -> Prop) (m : M A) : Prop :=
  forall st, P st -> P (m st).2.

(** The membership rows of the hosts other than [host_id]. *)
Definition othersRows (host_id : Z) (s : Store) : list (Z * Z) :=
  filter (fun r => r.1 ≠ host_id) (host_software s).

(** Whenever the call [m] returns a value, the value has the property [Q]. *)
Definition yields {A} (Q : A -> Prop) (m : M A) : Prop :=
  forall st a st', m st = (Ok a, st') -> Q a.

(** The flat argument list of the value tuples [(host_id, i)], [i] in
    [ids]. *)
Definition flatPairs (host_id : Z) (ids : list Z) : list Z :=
  concat ((fun i => [host_id; i]) <$> ids).





(** ** Example states *)

(** A host that reports [A 1 apt] and [B 2 npm], staged for saving, and a
    store that holds [A 1 apt] for it. *)
Definition exampleHost : Host :=
  mkHost 7 (mkHostSoftware [ {| ID := 0; Name := "A"; Version := "1"; Source := "apt" |};
                             {| ID := 0; Name := "B"; Version := "2"; Source := "npm" |} ]
                           true).

Definition exampleState : State :=
  mkState (mkStore [ {| ID := 1; Name := "A"; Version := "1"; Source := "apt" |} ] [(7, 1)])
          None 2 [] [].

Definition exampleSaved : result unit * Host * State :=
  Eval vm_compute in SaveHostSoftware (mkDatastore 2) exampleHost exampleState.

(** The store holds [A 1 apt] and [B 2 npm]; the host 7 has both, the host 8 the second. *)
Definition bothState : State :=
  mkState (mkStore [ {| ID := 1; Name := "A"; Version := "1"; Source := "apt" |};
                     {| ID := 2; Name := "B"; Version := "2"; Source := "npm" |} ]
                   [(7, 1); (7, 2); (8, 2)])
          None 3 [] [].

Definition softwareA : Software := {| ID := 0; Name := "A"; Version := "1"; Source := "apt" |}.
Definition softwareB : Software := {| ID := 0; Name := "B"; Version := "2"; Source := "npm" |}.

(** A transaction that does not see [B 2 npm] in the catalog when it
    selects, while another session commits that triple before the insert. *)
Definition raceState : State :=
  let rows := [ {| ID := 1; Name := "A"; Version := "1"; Source := "apt" |} ] in
  mkState (mkStore rows [(7, 1)]) (Some (mkStore rows [(7, 1)])) 2
          [ quiet;
            mkEvent [ {| ID := 0; Name := "B"; Version := "2"; Source := "npm" |} ] None ]
          [Begin].

(** * Properties *)

(** ** Strings: splitting and joining *)

Section SplitJoin.

Variable c : ascii.

Lemma count_append (a b : string) :
  count c (a +:+ b) = (count c a + count c b)%nat.
Proof.
  induction a as [|x a IH]; simpl; [reflexivity|].
  rewrite IH. lia.
Qed.

Lemma length_append (a b : string) :
  String.length (a +:+ b) = (String.length a + String.length b)%nat.
Proof.
  induction a as [|x a IH]; simpl; [reflexivity|].
  rewrite IH. reflexivity.
Qed.

Lemma Split_nonempty (s : string) : Split s c <> [].
Proof.
  induction s as [|x s IH]; simpl; [discriminate|].
  destruct (Ascii.eqb x c); [discriminate|].
  destruct (Split s c); discriminate.
Qed.

(** [Split] yields one piece more than there are separators. *)
Lemma length_Split (s : string) : length (Split s c) = S (count c s).
Proof.
  induction s as [|x s IH]; simpl; [reflexivity|].
  destruct (Ascii.eqb x c); simpl; [congruence|].
  destruct (Split s c) as [|p ps] eqn:E; simpl in *; [discriminate|assumption].
Qed.

Lemma Split_free (a : string) : free_of c a -> Split a c = [a].
Proof.
  unfold free_of. induction a as [|x a IH]; simpl; [reflexivity|].
  destruct (Ascii.eqb x c); [discriminate|].
  intros H. rewrite IH by exact H. reflexivity.
Qed.

Lemma Split_append (a rest : string) :
  free_of c a -> Split (a +:+ String c rest) c = a :: Split rest c.
Proof.
  unfold free_of. induction a as [|x a IH]; simpl.
  - intros _. rewrite Ascii.eqb_refl. reflexivity.
  - destruct (Ascii.eqb x c); [discriminate|].
    intros H. rewrite IH by exact H. reflexivity.
Qed.

End SplitJoin.

Lemma length_substring_0 (n : nat) (s : string) :
  (n <= String.length s)%nat -> String.length (String.substring 0 n s) = n.
Proof.
  revert s. induction n as [|n IH]; intros [|x s]; simpl; intros H;
    try reflexivity; try lia.
  rewrite IH by lia. reflexivity.
Qed.

(** ** The key codec *)

Lemma truncateString_truncated (str : string) (limit : Z) :
  0 <= limit -> truncateString str limit = Some (truncated str limit).
Proof.
  intros H. unfold truncateString, truncated.
  destruct (len str >? limit); [|reflexivity].
  destruct (limit <? 0) eqn:E; [lia|reflexivity].
Qed.

Lemma truncated_short (str : string) (limit : Z) :
  len str <= limit -> truncated str limit = str.
Proof.
  intros H. unfold truncated.
  destruct (len str >? limit) eqn:E; [lia|reflexivity].
Qed.

Lemma truncated_long (str : string) (limit : Z) :
  0 <= limit < len str ->
  truncated str limit = String.substring 0 (Z.to_nat limit) str
  /\ len (truncated str limit) = limit.
Proof.
  intros H. unfold truncated.
  destruct (len str >? limit) eqn:E; [|lia].
  split; [reflexivity|].
  unfold len in *. rewrite length_substring_0 by lia. lia.
Qed.

Lemma softwareToUniqueString_eq (t : Software) :
  softwareToUniqueString t
  = Name t +:+ String NUL (Version t +:+ String NUL (Source t)).
Proof. reflexivity. Qed.

Lemma Split_softwareToUniqueString (t : Software) :
  free_of NUL (Name t) -> free_of NUL (Version t) -> free_of NUL (Source t) ->
  Split (softwareToUniqueString t) NUL = [Name t; Version t; Source t].
Proof.
  intros Hn Hv Hs. rewrite softwareToUniqueString_eq.
  rewrite Split_append by exact Hn.
  rewrite Split_append by exact Hv.
  rewrite Split_free by exact Hs. reflexivity.
Qed.

(** Decoding an encoded key truncates each field, and nothing else. *)
Lemma decode_encode (t : Software) :
  free_of NUL (Name t) -> free_of NUL (Version t) -> free_of NUL (Source t) ->
  uniqueStringToSoftware (softwareToUniqueString t)
  = Some {| ID := 0;
            Name := truncated (Name t) maxSoftwareNameLen;
            Version := truncated (Version t) maxSoftwareVersionLen;
            Source := truncated (Source t) maxSoftwareSourceLen |}.
Proof.
  intros Hn Hv Hs. unfold uniqueStringToSoftware.
  rewrite Split_softwareToUniqueString by assumption. simpl.
  rewrite !truncateString_truncated by (vm_compute; discriminate).
  reflexivity.
Qed.

(** C5.  A triple whose fields hold no separator byte and are within the
    length limits (name and version at most 255 bytes, source at most 64)
    survives encoding and decoding: the decoded key is the triple itself,
    with the zero identifier. *)
Theorem decode_encode_within_limits (t : Software) :
  free_of NUL (Name t) -> free_of NUL (Version t) -> free_of NUL (Source t) ->
  len (Name t) <= maxSoftwareNameLen ->
  len (Version t) <= maxSoftwareVersionLen ->
  len (Source t) <= maxSoftwareSourceLen ->
  uniqueStringToSoftware (softwareToUniqueString t)
  = Some {| ID := 0; Name := Name t; Version := Version t; Source := Source t |}.
Proof.
  intros Hn Hv Hs Ln Lv Ls.
  rewrite decode_encode by assumption.
  rewrite !truncated_short by assumption. reflexivity.
Qed.

Lemma decode_encode_within_limits_witness :
  let t := {| ID := 42; Name := "bash"; Version := "5.1-2"; Source := "deb_packages" |} in
  len (Name t) <= maxSoftwareNameLen
  /\ uniqueStringToSoftware (softwareToUniqueString t)
     = Some {| ID := 0; Name := "bash"; Version := "5.1-2"; Source := "deb_packages" |}.
Proof.
  intros t. split; [vm_compute; discriminate|].
  apply (decode_encode_within_limits t); vm_compute; (reflexivity || discriminate).
Defined.

(** C6.  For a triple whose fields hold no separator byte and of which some
    field is over its length limit, decoding the encoded key returns the
    triple with every over-length field cut to its first 255 (name,
    version) or 64 (source) bytes and the other fields as they are; the
    encoded key itself holds all three fields in full. *)
Theorem decode_encode_over_limit (t : Software) :
  free_of NUL (Name t) -> free_of NUL (Version t) -> free_of NUL (Source t) ->
  maxSoftwareNameLen < len (Name t)
  \/ maxSoftwareVersionLen < len (Version t)
  \/ maxSoftwareSourceLen < len (Source t) ->
  (exists r,
     uniqueStringToSoftware (softwareToUniqueString t) = Some r
     /\ Name r = (if len (Name t) >? 255
                  then String.substring 0 255 (Name t) else Name t)
     /\ Version r = (if len (Version t) >? 255
                     then String.substring 0 255 (Version t) else Version t)
     /\ Source r = (if len (Source t) >? 64
                    then String.substring 0 64 (Source t) else Source t)
     /\ len (Name r) = Z.min (len (Name t)) 255
     /\ len (Version r) = Z.min (len (Version t)) 255
     /\ len (Source r) = Z.min (len (Source t)) 64)
  /\ softwareToUniqueString t = Name t +:+ nul +:+ Version t +:+ nul +:+ Source t
  /\ len (softwareToUniqueString t)
     = len (Name t) + len (Version t) + len (Source t) + 2.
Proof.
  intros Hn Hv Hs _. split; [|split].
  - eexists. split; [apply decode_encode; assumption|]. simpl.
    assert (L : forall s n, 0 <= n -> len (truncated s n) = Z.min (len s) n).
    { intros s n Hn0. destruct (Z_lt_le_dec n (len s)) as [Hlt|Hle].
      - destruct (truncated_long s n) as [_ ->]; lia.
      - rewrite truncated_short by lia. lia. }
    repeat split; try reflexivity; apply L; vm_compute; discriminate.
  - reflexivity.
  - rewrite softwareToUniqueString_eq. unfold len.
    rewrite length_append. simpl. rewrite length_append. simpl. lia.
Qed.

Lemma decode_encode_over_limit_witness :
  let long := string_of_list_ascii (repeat "a"%char 300) in
  let t := {| ID := 7; Name := long; Version := "1.0"; Source := "npm_packages" |} in
  maxSoftwareNameLen < len (Name t)
  /\ uniqueStringToSoftware (softwareToUniqueString t)
     = Some {| ID := 0; Name := string_of_list_ascii (repeat "a"%char 255);
               Version := "1.0"; Source := "npm_packages" |}.
Proof.
  intros long t.
  assert (Hlong : maxSoftwareNameLen < len (Name t)) by (vm_compute; reflexivity).
  split; [exact Hlong|].
  destruct (decode_encode_over_limit t) as [[r (Hr & Hname & Hver & Hsrc & _)] _];
    [vm_compute; reflexivity .. | left; exact Hlong |].
  rewrite Hr. destruct r as [i n v s]. simpl in *.
  subst n v s. f_equal.
  vm_compute in Hr. injection Hr as <-. vm_compute. reflexivity.
Defined.

(** A key decodes, without a panic, exactly when it holds two separator
    bytes or more. *)
Lemma uniqueStringToSoftware_None (s : string) :
  uniqueStringToSoftware s = None <-> (count NUL s < 2)%nat.
Proof.
  unfold uniqueStringToSoftware.
  pose proof (length_Split NUL s) as HL.
  destruct (Split s NUL) as [|p0 [|p1 [|p2 ps]]]; simpl in *;
    rewrite ?truncateString_truncated by (vm_compute; discriminate); simpl;
    rewrite ?truncateString_truncated by (vm_compute; discriminate); simpl;
    rewrite ?truncateString_truncated by (vm_compute; discriminate); simpl;
    split; intros H; try reflexivity; try discriminate; lia.
Qed.

Lemma count_softwareToUniqueString (t : Software) :
  (2 <= count NUL (softwareToUniqueString t))%nat.
Proof.
  rewrite softwareToUniqueString_eq.
  rewrite count_append. simpl. rewrite count_append. simpl. lia.
Qed.

Lemma decode_key_defined (t : Software) :
  is_Some (uniqueStringToSoftware (softwareToUniqueString t)).
Proof.
  destruct (uniqueStringToSoftware (softwareToUniqueString t)) eqn:E; [eauto|].
  apply uniqueStringToSoftware_None in E.
  pose proof (count_softwareToUniqueString t). lia.
Qed.

(** C9.  [uniqueStringToSoftware] reads the components 0, 1 and 2 of the
    split input whatever their number, so it panics (index out of range) on
    exactly the strings with fewer than two separator bytes; the third
    component is missing for exactly those; and every key that
    [softwareToUniqueString] builds holds at least two separator bytes. *)
Theorem uniqueStringToSoftware_needs_two_separators :
  (forall s : string,
     uniqueStringToSoftware s = None <-> (count NUL s < 2)%nat)
  /\ (forall s : string,
        Split s NUL !! 2%nat = None <-> (count NUL s < 2)%nat)
  /\ (forall t : Software, (2 <= count NUL (softwareToUniqueString t))%nat).
Proof.
  split; [|split].
  - apply uniqueStringToSoftware_None.
  - intros s. pose proof (length_Split NUL s) as HL.
    destruct (Split s NUL) as [|p0 [|p1 [|p2 ps]]]; simpl in *;
      split; intros H; try reflexivity; try discriminate; lia.
  - apply count_softwareToUniqueString.
Qed.

(** ** The set differ *)

Lemma bitmap_lookup (l : list Software) (m : gmap string bool) (k : string) :
  is_Some (foldl (fun m s => <[softwareToUniqueString s := true]> m) m l !! k)
  <-> is_Some (m !! k) \/ k ∈ keys l.
Proof.
  revert m. induction l as [|s l IH]; intros m; simpl.
  - unfold keys. simpl. rewrite elem_of_nil. tauto.
  - rewrite IH. change (keys (s :: l)) with (softwareToUniqueString s :: keys l).
    rewrite elem_of_cons.
    destruct (decide (softwareToUniqueString s = k)) as [->|Hne].
    + rewrite lookup_insert_eq. split; intros _; [right; left; reflexivity|left; eauto].
    + rewrite lookup_insert_ne by exact Hne. split; intros [H|H]; auto.
      * destruct H as [H|H]; [congruence|auto].
Qed.

(** What [nothingChanged] computes, duplicates or not. *)
Lemma nothingChanged_spec (A B : list Software) :
  nothingChanged A B = true
  <-> length A = length B /\ (forall k, k ∈ keys B -> k ∈ keys A).
Proof.
  unfold nothingChanged.
  destruct (Nat.eqb_spec (length A) (length B)) as [HL|HL]; simpl.
  - rewrite forallb_forall. split.
    + intros H. split; [exact HL|]. intros k Hk.
      apply list_elem_of_fmap in Hk as [s [-> Hs]].
      apply list_elem_of_In in Hs. specialize (H s Hs).
      apply bool_decide_eq_true in H. apply bitmap_lookup in H as [H|H]; [|exact H].
      rewrite lookup_empty in H. destruct H. discriminate.
    + intros [_ H] s Hs. apply bool_decide_eq_true. apply bitmap_lookup. right.
      apply H. apply list_elem_of_fmap. exists s. split; [reflexivity|].
      apply list_elem_of_In. exact Hs.
  - split; [discriminate|]. intros [H _]. contradiction.
Qed.

Lemma nothingChanged_sets (A B : list Software) :
  NoDup (keys A) -> NoDup (keys B) ->
  nothingChanged A B = true
  <-> list_to_set (keys A) =@{gset string} list_to_set (keys B).
Proof.
  intros HA HB. rewrite nothingChanged_spec. split.
  - intros [HL Hsub].
    assert (HP : keys B ≡ₚ keys A).
    { apply submseteq_length_Permutation.
      - apply NoDup_submseteq; assumption.
      - unfold keys. rewrite !length_fmap. lia. }
    apply set_eq. intros k. rewrite !elem_of_list_to_set. rewrite HP. tauto.
  - intros Heq.
    assert (Hiff : forall k, k ∈ keys A <-> k ∈ keys B).
    { intros k. rewrite <- !(elem_of_list_to_set (C := gset string)).
      rewrite Heq. tauto. }
    split; [|intros k; apply Hiff].
    assert (HP : keys A ≡ₚ keys B) by (apply NoDup_Permutation; assumption).
    apply Permutation_length in HP. unfold keys in HP.
    rewrite !length_fmap in HP. exact HP.
Qed.

(** C4.  On collections without two entries of the same dedup key,
    [nothingChanged A B] is true exactly when [A] and [B] have the same set
    of dedup keys, and it gives the same answer with its arguments swapped.
    Collections of different lengths are reported as changed. *)
Theorem nothingChanged_iff_same_keys (A B : list Software) :
  NoDup (keys A) -> NoDup (keys B) ->
  (nothingChanged A B = true
   <-> list_to_set (keys A) =@{gset string} list_to_set (keys B))
  /\ nothingChanged A B = nothingChanged B A
  /\ (length A <> length B -> nothingChanged A B = false).
Proof.
  intros HA HB. split; [|split].
  - apply nothingChanged_sets; assumption.
  - pose proof (nothingChanged_sets A B HA HB) as H1.
    pose proof (nothingChanged_sets B A HB HA) as H2.
    destruct (nothingChanged A B), (nothingChanged B A); try reflexivity.
    + symmetry. apply H2. symmetry. apply H1. reflexivity.
    + apply H1. symmetry. apply H2. reflexivity.
  - intros HL. destruct (nothingChanged A B) eqn:E; [|reflexivity].
    apply nothingChanged_spec in E as [E _]. contradiction.
Qed.

Lemma nothingChanged_iff_same_keys_witness :
  let apt := {| ID := 1; Name := "A"; Version := "1"; Source := "apt" |} in
  let npm := {| ID := 2; Name := "B"; Version := "2"; Source := "npm" |} in
  NoDup (keys [apt; npm]) /\ NoDup (keys [npm; apt])
  /\ nothingChanged [apt; npm] [npm; apt] = nothingChanged [npm; apt] [apt; npm].
Proof.
  intros apt npm.
  assert (H1 : NoDup (keys [apt; npm])) by (apply (bool_decide_unpack _); vm_compute; exact I).
  assert (H2 : NoDup (keys [npm; apt])) by (apply (bool_decide_unpack _); vm_compute; exact I).
  split; [exact H1|]. split; [exact H2|].
  apply (nothingChanged_iff_same_keys [apt; npm] [npm; apt] H1 H2).
Defined.

(** ** The store: what a round trip changes *)

Lemma addRows_nil (s : Store) : addRows [] s = s.
Proof. destruct s as [sw hs]. unfold addRows. simpl. rewrite app_nil_r. reflexivity. Qed.

Lemma addRows_app (a b : list Software) (s : Store) :
  addRows b (addRows a s) = addRows (a ++ b) s.
Proof. unfold addRows. simpl. rewrite app_assoc. reflexivity. Qed.

Lemma elsewhere_refl (st : State) : elsewhere [] st st.
Proof.
  split; [symmetry; apply addRows_nil|].
  destruct (view st) as [v|]; simpl; [|reflexivity].
  rewrite addRows_nil. reflexivity.
Qed.

Lemma elsewhere_trans (a b : list Software) (st1 st2 st3 : State) :
  elsewhere a st1 st2 -> elsewhere b st2 st3 -> elsewhere (a ++ b) st1 st3.
Proof.
  intros [D1 V1] [D2 V2]. split.
  - rewrite D2, D1. apply addRows_app.
  - rewrite V2, V1. destruct (view st1) as [v|]; simpl; [|reflexivity].
    rewrite addRows_app. reflexivity.
Qed.

Lemma commitElsewhere_frame (st : State) (t : Software) :
  trace (commitElsewhere st t) = trace st
  /\ script (commitElsewhere st t) = script st
  /\ exists extra, elsewhere extra st (commitElsewhere st t)
       /\ Forall (fun r => Name r = Name t /\ Version r = Version t
                           /\ Source r = Source t) extra.
Proof.
  unfold commitElsewhere.
  destruct (existsb _ _).
  - repeat split. exists []. split; [apply elsewhere_refl|constructor].
  - simpl. repeat split.
    eexists [_]. split; [split; reflexivity|].
    constructor; [simpl; auto|constructor].
Qed.

Lemma commitAll_frame (ts : list Software) (st : State) :
  trace (foldl commitElsewhere st ts) = trace st
  /\ script (foldl commitElsewhere st ts) = script st
  /\ exists extra, elsewhere extra st (foldl commitElsewhere st ts)
       /\ Forall (fun r => exists t, t ∈ ts /\ Name r = Name t
                            /\ Version r = Version t /\ Source r = Source t) extra.
Proof.
  revert st. induction ts as [|t ts IH]; intros st; simpl.
  - repeat split. exists []. split; [apply elsewhere_refl|constructor].
  - destruct (commitElsewhere_frame st t) as (T1 & S1 & a & E1 & F1).
    destruct (IH (commitElsewhere st t)) as (T2 & S2 & b & E2 & F2).
    split; [congruence|]. split; [congruence|].
    exists (a ++ b). split; [eapply elsewhere_trans; eassumption|].
    apply Forall_app. split.
    + eapply Forall_impl; [exact F1|]. intros r H. exists t.
      split; [apply elem_of_cons; left; reflexivity|exact H].
    + eapply Forall_impl; [exact F2|]. intros r (t' & Ht' & H). exists t'.
      split; [apply elem_of_cons; right; exact Ht'|exact H].
Qed.

(** A round trip records its action, consumes one event, and changes the
    tables only by what other sessions commit; it never panics. *)
Lemma roundTrip_inv (a : action) (st st' : State) (r : result unit) :
  roundTrip a st = (r, st') ->
  trace st' = trace st ++ [a]
  /\ script st' = tl (script st)
  /\ r = match fault (hd quiet (script st)) with
         | Some err => Err err
         | None => Ok tt
         end
  /\ exists extra, elsewhere extra st st'
       /\ Forall (fromElsewhere (script st)) extra.
Proof.
  unfold roundTrip. intros H.
  set (st1 := mkState (db st) (view st) (auto_increment st) (tl (script st)) (trace st)) in *.
  destruct (commitAll_frame (concurrent (hd quiet (script st))) st1)
    as (T & S & extra & E & F).
  assert (Hst' : st' = log a (foldl commitElsewhere st1 (concurrent (hd quiet (script st)))))
    by (destruct (fault _); injection H; auto).
  assert (Hr : r = match fault (hd quiet (script st)) with
                   | Some err => Err err | None => Ok tt end)
    by (destruct (fault _); injection H; auto).
  subst st'. simpl. rewrite T, S. simpl.
  repeat split; [exact Hr|].
  exists extra. split; [exact E|].
  eapply Forall_impl; [exact F|]. intros row (t & Ht & Hrow).
  destruct (script st) as [|e es]; simpl in Ht.
  - apply elem_of_nil in Ht. contradiction.
  - exists e, t. split; [apply elem_of_cons; left; reflexivity|]. split; assumption.
Qed.

Lemma trace_write (f : Store -> Store) (st : State) : trace (write f st) = trace st.
Proof. unfold write. destruct (view st); reflexivity. Qed.

Lemma wrapErr_state {A} (m : M A) (message : string) (st : State) :
  (wrapErr m message st).2 = (m st).2.
Proof. unfold wrapErr. destruct (m st) as [[a|e|] st']; reflexivity. Qed.

(** A statement, whatever it then does to the tables, shows up in the trace
    once. *)
Lemma statement_trace {A} (a : action) (g : M A) (st : State) :
  (forall st0, trace (g st0).2 = trace st0) ->
  trace ((roundTrip a ;; g) st).2 = trace st ++ [a].
Proof.
  intros Hg. unfold bind.
  destruct (roundTrip a st) as [r st1] eqn:E.
  apply roundTrip_inv in E as (T & _).
  destruct r as [[]|e|]; simpl; rewrite <- T; [apply Hg|reflexivity..].
Qed.

Lemma deleteHostSoftwareIn_trace (args : list Z) (st : State) :
  trace (deleteHostSoftwareIn args st).2
  = trace st ++ [Stmt (DeleteHostSoftwareIn args)].
Proof.
  unfold deleteHostSoftwareIn. apply statement_trace. intros st0.
  destruct args as [|h [|i ids]]; simpl; try reflexivity. apply trace_write.
Qed.

(** ** The delete pass *)

Lemma rangeKeys_lookup {V} (m : gmap string V) (k : string) :
  k ∈ rangeKeys m -> is_Some (m !! k).
Proof.
  unfold rangeKeys. intros H.
  apply list_elem_of_fmap in H as [[k' v] [-> H]].
  apply elem_of_map_to_list in H. simpl. eauto.
Qed.

Lemma collectDeletes_covered (currentIdmap : gmap string Z)
    (incomingBitmap : gmap string bool) (start : list Z) (ks : list string) :
  (forall k, k ∈ ks -> is_Some (incomingBitmap !! k)) ->
  collectDeletes currentIdmap incomingBitmap start ks = start.
Proof.
  revert start. induction ks as [|k ks IH]; intros start H; simpl; [reflexivity|].
  destruct (H k) as [b Hb]; [apply elem_of_cons; left; reflexivity|].
  rewrite Hb. apply IH. intros k' Hk'. apply H. apply elem_of_cons. right. exact Hk'.
Qed.

Lemma collectDeletes_extends (currentIdmap : gmap string Z)
    (incomingBitmap : gmap string bool) (start : list Z) (ks : list string) :
  exists ids, collectDeletes currentIdmap incomingBitmap start ks = start ++ ids.
Proof.
  revert start. induction ks as [|k ks IH]; intros start; simpl.
  - exists []. rewrite app_nil_r. reflexivity.
  - destruct (incomingBitmap !! k); [apply IH|].
    destruct (IH (start ++ [default 0 (currentIdmap !! k)])) as [ids Hids].
    eexists. rewrite Hids, <- app_assoc. reflexivity.
Qed.

(** The delete pass sends at most one statement, and never one with an
    empty identifier list. *)
Lemma deleteUninstalled_statements (tx : Tx) (hostID : Z)
    (currentIdmap : gmap string Z) (incomingBitmap : gmap string bool) (st : State) :
  let st' := (deleteUninstalledHostSoftware tx hostID currentIdmap incomingBitmap st).2 in
  trace st' = trace st
  \/ exists id ids,
       trace st' = trace st ++ [Stmt (DeleteHostSoftwareIn (hostID :: id :: ids))].
Proof.
  unfold deleteUninstalledHostSoftware.
  destruct (collectDeletes_extends currentIdmap incomingBitmap [hostID]
              (rangeKeys currentIdmap)) as [ids ->].
  destruct ids as [|id ids]; simpl; [left; reflexivity|].
  right. exists id, ids. rewrite wrapErr_state. apply deleteHostSoftwareIn_trace.
Qed.

(** C8.  When every key of [currentIdmap] is a key of [incomingBitmap], the
    delete pass returns at once: no statement is sent and the state is as
    before.  On any input, a deletion it sends names at least one
    identifier. *)
Theorem deleteUninstalled_nothing_to_delete (tx : Tx) (hostID : Z)
    (currentIdmap : gmap string Z) (incomingBitmap : gmap string bool) (st : State) :
  dom currentIdmap ⊆ dom incomingBitmap ->
  deleteUninstalledHostSoftware tx hostID currentIdmap incomingBitmap st = (Ok tt, st)
  /\ forall (cur : gmap string Z) (inc : gmap string bool) (st0 : State),
       let st' := (deleteUninstalledHostSoftware tx hostID cur inc st0).2 in
       trace st' = trace st0
       \/ exists id ids,
            trace st' = trace st0 ++ [Stmt (DeleteHostSoftwareIn (hostID :: id :: ids))].
Proof.
  intros Hsub. split; [|intros; apply deleteUninstalled_statements].
  unfold deleteUninstalledHostSoftware.
  rewrite collectDeletes_covered; [reflexivity|].
  intros k Hk. apply rangeKeys_lookup in Hk.
  apply elem_of_dom. apply Hsub. apply elem_of_dom. exact Hk.
Qed.

Lemma deleteUninstalled_nothing_to_delete_witness :
  let apt := {| ID := 1; Name := "A"; Version := "1"; Source := "apt" |} in
  let npm := {| ID := 2; Name := "B"; Version := "2"; Source := "npm" |} in
  let st := mkState (mkStore [apt] [(7, 1)]) (Some (mkStore [apt] [(7, 1)])) 2 [] [Begin] in
  dom (softwareSliceToIdMap [apt]) ⊆ dom (softwareSliceToSet [apt; npm])
  /\ deleteUninstalledHostSoftware TxHandle 7 (softwareSliceToIdMap [apt])
       (softwareSliceToSet [apt; npm]) st = (Ok tt, st).
Proof.
  intros apt npm st.
  assert (H : dom (softwareSliceToIdMap [apt]) ⊆ dom (softwareSliceToSet [apt; npm]))
    by (apply (bool_decide_unpack _); vm_compute; exact I).
  split; [exact H|].
  apply (deleteUninstalled_nothing_to_delete TxHandle 7 _ _ st H).
Defined.

(** ** Loading *)

(** C10.  [LoadHostSoftware] first resets the software state of the host
    (empty collection, [Modified] false) and then reads.  After a successful
    call [Modified] is false and the collection is the persisted one,
    whatever was staged before; when the read fails the host is left reset,
    and the error of the read is returned. *)
Theorem LoadHostSoftware_resets (d : Datastore) (host : Host) (st : State) :
  let '(r, host', st') := LoadHostSoftware d host st in
  Host_ID host' = Host_ID host
  /\ Modified (Host_HostSoftware host') = false
  /\ match r with
     | Ok _ =>
         fault (hd quiet (script st)) = None
         /\ HostSoftware_Software (Host_HostSoftware host')
            = persisted (Host_ID host) (db st')
     | Err e =>
         (exists cause, fault (hd quiet (script st)) = Some cause
                        /\ e = Wrap cause "load host software")
         /\ HostSoftware_Software (Host_HostSoftware host') = []
     | Panic => False
     end.
Proof.
  unfold LoadHostSoftware, hostSoftwareFromHostID, wrapErr, selectHostSoftware, bind.
  simpl.
  destruct (roundTrip (Stmt (SelectHostSoftware (Host_ID host))) st) as [r0 st0] eqn:E.
  apply roundTrip_inv in E as (_ & _ & Hr & _).
  destruct (fault (hd quiet (script st))) as [err|]; subst r0; simpl.
  - repeat split. exists err. split; reflexivity.
  - repeat split.
Qed.

(** ** Saving *)

(** C7.  After a call of [SaveHostSoftware] that succeeded, [Modified] is
    false, and a second call on the same host returns success at once: the
    state of the store, its trace included, is what it was, so no statement
    is sent and no transaction is opened; [Modified] is false after it
    too. *)
Theorem SaveHostSoftware_twice (d : Datastore) (host host1 : Host) (st st1 : State) :
  SaveHostSoftware d host st = (Ok tt, host1, st1) ->
  Modified (Host_HostSoftware host1) = false
  /\ SaveHostSoftware d host1 st1 = (Ok tt, host1, st1).
Proof.
  intros H.
  assert (HM : Modified (Host_HostSoftware host1) = false).
  { unfold SaveHostSoftware in H.
    destruct (Modified (Host_HostSoftware host)) eqn:EM; simpl in H.
    - destruct (wrapErr _ _ st) as [[u|e|] st'']; try discriminate.
      injection H as <- <-. reflexivity.
    - injection H as <- <-. exact EM. }
  split; [exact HM|].
  unfold SaveHostSoftware. rewrite HM. reflexivity.
Qed.

Lemma SaveHostSoftware_twice_witness :
  SaveHostSoftware (mkDatastore 2) exampleHost exampleState
  = (Ok tt, exampleSaved.1.2, exampleSaved.2)
  /\ Modified (Host_HostSoftware exampleSaved.1.2) = false
  /\ SaveHostSoftware (mkDatastore 2) exampleSaved.1.2 exampleSaved.2
     = (Ok tt, exampleSaved.1.2, exampleSaved.2).
Proof.
  assert (H : SaveHostSoftware (mkDatastore 2) exampleHost exampleState
              = (Ok tt, exampleSaved.1.2, exampleSaved.2))
    by (vm_compute; reflexivity).
  split; [exact H|].
  exact (SaveHostSoftware_twice _ _ _ _ _ H).
Defined.

(** *** Saving never panics *)

Lemma noPanic_ret {A} (a : A) : noPanic (ret a).
Proof. intros st. discriminate. Qed.

Lemma noPanic_bind {A B} (m : M A) (k : A -> M B) :
  noPanic m -> (forall a, noPanic (k a)) -> noPanic (bind m k).
Proof.
  intros Hm Hk st. unfold bind. specialize (Hm st).
  destruct (m st) as [[a|e|] st1]; simpl in *; [apply Hk|discriminate|contradiction].
Qed.

Lemma noPanic_wrapErr {A} (m : M A) (message : string) :
  noPanic m -> noPanic (wrapErr m message).
Proof.
  intros Hm st. unfold wrapErr. specialize (Hm st).
  destruct (m st) as [[a|e|] st1]; simpl in *; [discriminate..|contradiction].
Qed.

Lemma noPanic_roundTrip (a : action) : noPanic (roundTrip a).
Proof.
  intros st. destruct (roundTrip a st) as [r st1] eqn:E.
  apply roundTrip_inv in E as (_ & _ & -> & _). simpl.
  destruct (fault _); discriminate.
Qed.

Lemma noPanic_statement {A} (a : action) (g : M A) :
  noPanic g -> noPanic (roundTrip a ;; g).
Proof. intros Hg. apply noPanic_bind; [apply noPanic_roundTrip|intros _; exact Hg]. Qed.

Lemma noPanic_getOrGenerateSoftwareId (tx : Tx) (s : Software) :
  noPanic (getOrGenerateSoftwareId tx s).
Proof.
  unfold getOrGenerateSoftwareId.
  apply noPanic_bind.
  { apply noPanic_statement. intros st. discriminate. }
  intros [|id0 ids]; [|apply noPanic_ret].
  apply noPanic_bind.
  { apply noPanic_wrapErr, noPanic_statement. intros st.
    destruct (existsb _ _); discriminate. }
  intros result. apply noPanic_bind; [|intros id; apply noPanic_ret].
  apply noPanic_wrapErr, noPanic_ret.
Qed.

Lemma noPanic_collectInserts (tx : Tx) (hostID : Z) (currentIdmap : gmap string Z)
    (ks : list string) (acc : list Z) :
  (forall k, k ∈ ks -> is_Some (uniqueStringToSoftware k)) ->
  noPanic (collectInserts tx hostID currentIdmap ks acc).
Proof.
  revert acc. induction ks as [|k ks IH]; intros acc Hks; simpl.
  - apply noPanic_ret.
  - assert (Hrest : forall k', k' ∈ ks -> is_Some (uniqueStringToSoftware k')).
    { intros k' Hk'. apply Hks. apply elem_of_cons. right. exact Hk'. }
    destruct (currentIdmap !! k); [apply IH; exact Hrest|].
    destruct (Hks k) as [sw Hsw]; [apply elem_of_cons; left; reflexivity|].
    rewrite Hsw. apply noPanic_bind; [intros st; discriminate|].
    intros sw'. apply noPanic_bind; [apply noPanic_getOrGenerateSoftwareId|].
    intros id. apply IH. exact Hrest.
Qed.

(** Every key of the incoming set is the key of a staged entry, so it
    decodes. *)
Lemma softwareSliceToSet_keys_decode (softwares : list Software) (k : string) :
  k ∈ rangeKeys (softwareSliceToSet softwares) ->
  is_Some (uniqueStringToSoftware k).
Proof.
  intros Hk. apply rangeKeys_lookup in Hk.
  unfold softwareSliceToSet in Hk. apply bitmap_lookup in Hk as [Hk|Hk].
  - rewrite lookup_empty in Hk. destruct Hk. discriminate.
  - apply list_elem_of_fmap in Hk as [s [-> _]]. apply decode_key_defined.
Qed.

Lemma noPanic_deleteUninstalledHostSoftware (tx : Tx) (hostID : Z)
    (currentIdmap : gmap string Z) (incomingBitmap : gmap string bool) :
  noPanic (deleteUninstalledHostSoftware tx hostID currentIdmap incomingBitmap).
Proof.
  unfold deleteUninstalledHostSoftware.
  destruct (_ <=? _)%nat; [apply noPanic_ret|].
  apply noPanic_wrapErr. unfold deleteHostSoftwareIn. apply noPanic_statement.
  destruct (collectDeletes _ _ _ _) as [|h [|i ids]]; intros st; discriminate.
Qed.





(** ** Saving an empty collection *)

Lemma faultFree_hd (es : list event) : faultFree es -> fault (hd quiet es) = None.
Proof.
  destruct es as [|e es]; intros H; simpl; [reflexivity|].
  apply H. apply elem_of_cons. left. reflexivity.
Qed.

Lemma faultFree_tl (es : list event) : faultFree es -> faultFree (tl es).
Proof.
  destruct es as [|e es]; intros H; simpl; [exact H|].
  intros e' He'. apply H. apply elem_of_cons. right. exact He'.
Qed.

Lemma fromElsewhere_suffix (es es' : list event) (r : Software) :
  es' `suffix_of` es -> fromElsewhere es' r -> fromElsewhere es r.
Proof.
  intros [pre ->] (e & t & He & H). exists e, t. split; [|exact H].
  apply elem_of_app. right. exact He.
Qed.

Lemma suffix_tl {A} (l : list A) : tl l `suffix_of` l.
Proof. destruct l as [|x l]; simpl; [reflexivity|]. apply suffix_cons_r. reflexivity. Qed.

Lemma saveBody_empty (host : Host) (tx : Tx) (st : State) :
  HostSoftware_Software (Host_HostSoftware host) = [] ->
  saveBody host tx st
  = match roundTrip (Stmt (DeleteHostSoftware (Host_ID host))) st with
    | (Ok _, st1) => (Ok tt, write (cleared (Host_ID host)) st1)
    | (Err e, st1) => (Err (Wrap e "clear join table entries"), st1)
    | (Panic, st1) => (Panic, st1)
    end.
Proof.
  intros H. unfold saveBody. rewrite H. simpl.
  unfold bind, wrapErr, deleteHostSoftware, bind.
  destruct (roundTrip _ st) as [[[]|e|] st1]; reflexivity.
Qed.

(** One run of the transaction of a host with an empty collection. *)
Lemma runTx_empty (host : Host) (st st' : State) (r : result unit) :
  HostSoftware_Software (Host_HostSoftware host) = [] ->
  runTx (saveBody host) st = (r, st') ->
  let del := Stmt (DeleteHostSoftware (Host_ID host)) in
  exists extra new,
    trace st' = trace st ++ new
    /\ Forall (fromElsewhere (script st)) extra
    /\ script st' `suffix_of` script st
    /\ ((r = Ok tt /\ new = [Begin; del; Commit]
         /\ db st' = cleared (Host_ID host) (addRows extra (db st)))
        \/ ((exists e, r = Err e) /\ ~ faultFree (script st)
            /\ (new = [Begin] \/ new = [Begin; del; Rollback]
                \/ new = [Begin; del; Commit; Rollback])
            /\ db st' = addRows extra (db st))).
Proof.
  intros Hempty H del. unfold runTx, wrapErr in H.
  destruct (roundTrip Begin st) as [r0 st0] eqn:E0.
  apply roundTrip_inv in E0 as (T0 & S0 & R0 & x0 & [D0 V0] & F0).
  destruct (fault (hd quiet (script st))) as [err0|] eqn:Q0; subst r0.
  { injection H as <- <-. exists x0, [Begin].
    split; [exact T0|]. split; [exact F0|].
    split; [rewrite S0; apply suffix_tl|].
    right. split; [eauto|]. split; [|split; [auto|exact D0]].
    intros FF. apply faultFree_hd in FF. congruence. }
  rewrite saveBody_empty in H by exact Hempty.
  destruct (roundTrip (Stmt (DeleteHostSoftware (Host_ID host))) (openTx st0))
    as [r1 st1] eqn:E1.
  apply roundTrip_inv in E1 as (T1 & S1 & R1 & x1 & [D1 V1] & F1).
  simpl in T1, S1, R1, D1, V1, F1.
  assert (Suf1 : script st1 `suffix_of` script st).
  { rewrite S1, S0. etransitivity; apply suffix_tl. }
  assert (F01 : Forall (fromElsewhere (script st)) (x0 ++ x1)).
  { apply Forall_app. split; [exact F0|].
    eapply Forall_impl; [exact F1|]. intros row. apply fromElsewhere_suffix.
    rewrite S0. apply suffix_tl. }
  destruct (fault (hd quiet (script st0))) as [err1|] eqn:Q1; subst r1.
  { injection H as <- <-. exists (x0 ++ x1), [Begin; del; Rollback].
    split; [simpl; rewrite T1, T0, <- !app_assoc; reflexivity|].
    split; [exact F01|]. split; [exact Suf1|].
    right. split; [eauto|]. split; [|split; [auto|]].
    - intros FF. apply faultFree_tl, faultFree_hd in FF. congruence.
    - simpl. rewrite D1, D0. apply addRows_app. }
  set (st1' := write (cleared (Host_ID host)) st1) in *.
  assert (W : db st1' = db st1
              /\ view st1' = Some (cleared (Host_ID host) (addRows x1 (db st0)))
              /\ script st1' = script st1 /\ trace st1' = trace st1).
  { unfold st1', write. rewrite V1. simpl. repeat split. }
  destruct W as (Dw & Vw & Sw & Tw).
  destruct (roundTrip Commit st1') as [r2 st2] eqn:E2.
  apply roundTrip_inv in E2 as (T2 & S2 & R2 & x2 & [D2 V2] & F2).
  rewrite Dw in D2. rewrite Vw in V2. rewrite Sw in S2, R2, F2. rewrite Tw in T2.
  simpl in V2.
  assert (Suf2 : script st2 `suffix_of` script st).
  { rewrite S2. etransitivity; [apply suffix_tl|exact Suf1]. }
  assert (F012 : Forall (fromElsewhere (script st)) ((x0 ++ x1) ++ x2)).
  { apply Forall_app. split; [exact F01|].
    eapply Forall_impl; [exact F2|]. intros row. apply fromElsewhere_suffix. exact Suf1. }
  assert (Tr : trace st2 = trace st ++ [Begin; del; Commit]).
  { rewrite T2, T1, T0, <- !app_assoc. reflexivity. }
  destruct (fault (hd quiet (script st1))) as [err2|] eqn:Q2; subst r2.
  - injection H as <- <-. exists ((x0 ++ x1) ++ x2), [Begin; del; Commit; Rollback].
    split; [simpl; rewrite Tr, <- !app_assoc; reflexivity|].
    split; [exact F012|]. split; [exact Suf2|].
    right. split; [eauto|]. split; [|split; [auto|]].
    + intros FF. rewrite S1, S0 in Q2.
      apply faultFree_tl, faultFree_tl, faultFree_hd in FF. congruence.
    + simpl. rewrite D2, D1, D0, !addRows_app, ?app_assoc. reflexivity.
  - injection H as <- <-. exists ((x0 ++ x1) ++ x2), [Begin; del; Commit].
    split; [exact Tr|]. split; [exact F012|]. split; [exact Suf2|].
    left. split; [reflexivity|]. split; [reflexivity|].
    simpl. unfold current. rewrite V2. simpl.
    rewrite D0, <- !addRows_app. reflexivity.
Qed.

Lemma statements_app (a b : list action) :
  statements (a ++ b) = statements a ++ statements b.
Proof. unfold statements. apply omap_app. Qed.

(** The transaction of a host with an empty collection, retried. *)
Lemma retryTx_empty (host : Host) (n : nat) (st st' : State) (r : result unit) :
  HostSoftware_Software (Host_HostSoftware host) = [] ->
  retryTx n (saveBody host) st = (r, st') ->
  let del := DeleteHostSoftware (Host_ID host) in
  exists extra new,
    trace st' = trace st ++ new
    /\ Forall (fromElsewhere (script st)) extra
    /\ script st' `suffix_of` script st
    /\ Forall (eq del) (statements new)
    /\ (length (statements new) <= S n)%nat
    /\ ((r = Ok tt /\ (exists earlier, new = earlier ++ [Begin; Stmt del; Commit])
         /\ (faultFree (script st) -> new = [Begin; Stmt del; Commit])
         /\ db st' = cleared (Host_ID host) (addRows extra (db st)))
        \/ ((exists e, r = Err e) /\ ~ faultFree (script st)
            /\ db st' = addRows extra (db st))).
Proof.
  intros Hempty. revert st.
  assert (Once : forall st st1 r1,
    runTx (saveBody host) st = (r1, st1) ->
    (r1 = Ok tt \/ exists e, r1 = Err e) /\
    forall m, exists extra new,
      trace st1 = trace st ++ new
      /\ Forall (fromElsewhere (script st)) extra
      /\ script st1 `suffix_of` script st
      /\ Forall (eq (DeleteHostSoftware (Host_ID host))) (statements new)
      /\ (length (statements new) <= S m)%nat
      /\ ((r1 = Ok tt
           /\ (exists earlier,
                 new = earlier ++ [Begin; Stmt (DeleteHostSoftware (Host_ID host)); Commit])
           /\ (faultFree (script st) ->
               new = [Begin; Stmt (DeleteHostSoftware (Host_ID host)); Commit])
           /\ db st1 = cleared (Host_ID host) (addRows extra (db st)))
          \/ ((exists e, r1 = Err e) /\ ~ faultFree (script st)
              /\ db st1 = addRows extra (db st)))).
  { intros st st1 r1 E.
    destruct (runTx_empty host st st1 r1 Hempty E)
      as (x & new & T & F & Suf & [(-> & -> & D)|(Her & NF & Shape & D)]).
    - split; [left; reflexivity|]. intros m.
      exists x, [Begin; Stmt (DeleteHostSoftware (Host_ID host)); Commit].
      split; [exact T|]. split; [exact F|]. split; [exact Suf|].
      split; [repeat constructor|]. split; [simpl; lia|].
      left. split; [reflexivity|]. split; [exists []; reflexivity|].
      split; [reflexivity|exact D].
    - split; [right; exact Her|]. intros m. exists x, new.
      split; [exact T|]. split; [exact F|]. split; [exact Suf|].
      split; [destruct Shape as [->|[->| ->]]; repeat constructor|].
      split; [destruct Shape as [->|[->| ->]]; simpl; lia|].
      right. split; [exact Her|]. split; [exact NF|exact D]. }
  induction n as [|n IH]; intros st; simpl;
    destruct (runTx (saveBody host) st) as [r1 st1] eqn:E;
    destruct (Once st st1 r1 E) as [Hr1 Hrun].
  - intros H. assert (r = r1 /\ st' = st1) as [-> ->].
    { destruct r1 as [[]|e|]; injection H as <- <-; auto. }
    apply Hrun.
  - destruct Hr1 as [->|[e ->]].
    + intros H. injection H as <- <-. apply Hrun.
    + destruct (retryableError e).
      2:{ intros H. injection H as <- <-. apply Hrun. }
      intros H. apply IH in H.
      destruct (Hrun 0%nat)
        as (x1 & new1 & T1 & F1 & Suf1 & A1 & L1 & [(Hok & _)|(_ & NF1 & D1)]);
        [discriminate|].
      destruct H as (x2 & new2 & T2 & F2 & Suf2 & A2 & L2 & Hend).
      exists (x1 ++ x2), (new1 ++ new2).
      split; [rewrite T2, T1, app_assoc; reflexivity|].
      split.
      { apply Forall_app. split; [exact F1|].
        eapply Forall_impl; [exact F2|]. intros row.
        apply fromElsewhere_suffix. exact Suf1. }
      split; [etransitivity; eassumption|].
      rewrite statements_app.
      split; [apply Forall_app; split; assumption|].
      split; [rewrite length_app; lia|].
      destruct Hend as [(-> & [earlier ->] & _ & D2)|(Her & _ & D2)].
      * left. split; [reflexivity|].
        split; [exists (new1 ++ earlier); rewrite app_assoc; reflexivity|].
        split; [intros FF; contradiction|].
        rewrite D2, D1, addRows_app. reflexivity.
      * right. split; [exact Her|]. split; [exact NF1|].
        rewrite D2, D1, addRows_app. reflexivity.
Qed.

(** C3.  For a modified host with an empty collection:
    - each run of the transaction body sends exactly one statement, the
      deletion of all membership rows of the host;
    - whatever [SaveHostSoftware] sends is that deletion, once per run of
      its transaction (never a read of the current software, never a
      statement on the catalog), and exactly once, between begin and
      commit, when no round trip fails;
    - every catalog row stays as it is: the catalog afterwards is the one
      before, followed by the rows other sessions committed meanwhile;
    - on success the membership rows are those of the other hosts, and on
      an error return they are as before. *)
Theorem SaveHostSoftware_empty_collection (d : Datastore) (host : Host) (st : State) :
  Modified (Host_HostSoftware host) = true ->
  HostSoftware_Software (Host_HostSoftware host) = [] ->
  let del := DeleteHostSoftware (Host_ID host) in
  (forall (tx : Tx) (st0 : State),
     trace (saveBody host tx st0).2 = trace st0 ++ [Stmt del])
  /\ let '(r, host', st') := SaveHostSoftware d host st in
     exists extra new,
       trace st' = trace st ++ new
       /\ Forall (eq del) (statements new)
       /\ (length (statements new) <= S (retries d))%nat
       /\ (faultFree (script st) -> r = Ok tt /\ new = [Begin; Stmt del; Commit])
       /\ software (db st') = software (db st) ++ extra
       /\ Forall (fromElsewhere (script st)) extra
       /\ ((forall e, e ∈ script st -> concurrent e = []) ->
           software (db st') = software (db st))
       /\ match r with
          | Ok _ =>
              (exists earlier, new = earlier ++ [Begin; Stmt del; Commit])
              /\ host_software (db st')
                 = filter (fun row => row.1 ≠ Host_ID host) (host_software (db st))
          | Err _ => host_software (db st') = host_software (db st)
          | Panic => False
          end.
Proof.
  intros HM Hempty del. split.
  - intros tx st0. rewrite saveBody_empty by exact Hempty.
    destruct (roundTrip (Stmt (DeleteHostSoftware (Host_ID host))) st0)
      as [r1 st1] eqn:E.
    apply roundTrip_inv in E as (T & _).
    destruct r1 as [[]|e|]; simpl; rewrite ?trace_write; exact T.
  - unfold SaveHostSoftware, withRetryTxx, wrapErr. rewrite HM. simpl.
    destruct (retryTx (retries d) (saveBody host) st) as [r st'] eqn:E.
    destruct (retryTx_empty host _ st st' r Hempty E)
      as (extra & new & T & F & _ & A & L & Hend).
    assert (Hquiet : (forall e, e ∈ script st -> concurrent e = []) -> extra = []).
    { intros Hq. destruct extra as [|row extra]; [reflexivity|].
      apply Forall_cons in F as [(e & t & He & Ht & _) _].
      rewrite (Hq e He) in Ht. apply elem_of_nil in Ht. contradiction. }
    destruct Hend as [(-> & Hearlier & Hexact & D)|([e ->] & NF & D)].
    + exists extra, new. rewrite D.
      split; [exact T|]. split; [exact A|]. split; [exact L|].
      split; [intros FF; split; [reflexivity|apply Hexact; exact FF]|].
      split; [reflexivity|]. split; [exact F|].
      split; [intros Hq; simpl; rewrite (Hquiet Hq); apply app_nil_r|].
      split; [exact Hearlier|reflexivity].
    + exists extra, new. rewrite D.
      split; [exact T|]. split; [exact A|]. split; [exact L|].
      split; [intros FF; contradiction|].
      split; [reflexivity|]. split; [exact F|].
      split; [intros Hq; simpl; rewrite (Hquiet Hq); apply app_nil_r|].
      reflexivity.
Qed.

Lemma SaveHostSoftware_empty_collection_witness :
  let host := mkHost 7 (mkHostSoftware [] true) in
  Modified (Host_HostSoftware host) = true
  /\ HostSoftware_Software (Host_HostSoftware host) = []
  /\ trace (SaveHostSoftware (mkDatastore 2) host exampleState).2
     = [Begin; Stmt (DeleteHostSoftware 7); Commit]
  /\ software (db (SaveHostSoftware (mkDatastore 2) host exampleState).2)
     = software (db exampleState).
Proof.
  intros host. split; [reflexivity|]. split; [reflexivity|].
  destruct (SaveHostSoftware_empty_collection (mkDatastore 2) host exampleState
              eq_refl eq_refl) as [_ H].
  destruct (SaveHostSoftware (mkDatastore 2) host exampleState) as [[r host'] st'].
  destruct H as (extra & new & T & _ & _ & Hff & _ & _ & Hq & _).
  split.
  - destruct Hff as [_ ->]; [intros e He; apply elem_of_nil in He; contradiction|].
    exact T.
  - apply Hq. intros e He. apply elem_of_nil in He. contradiction.
Defined.

(** ** The catalog resolver *)

(** [getOrGenerateSoftwareId] sends its SELECT, and after it at most the
    INSERT IGNORE: the catalog is never read a second time. *)
Lemma getOrGenerateSoftwareId_statements (tx : Tx) (s : Software) (st : State) :
  let st' := (getOrGenerateSoftwareId tx s st).2 in
  let sel := Stmt (SelectSoftwareId (Name s) (Version s) (Source s)) in
  let ins := Stmt (InsertIgnoreSoftware (Name s) (Version s) (Source s)) in
  trace st' = trace st ++ [sel] \/ trace st' = trace st ++ [sel; ins].
Proof.
  unfold getOrGenerateSoftwareId, selectSoftwareId, insertIgnoreSoftware,
    LastInsertId, wrapErr, bind, ret. simpl.
  destruct (roundTrip (Stmt (SelectSoftwareId _ _ _)) st) as [r0 st0] eqn:E0.
  apply roundTrip_inv in E0 as (T0 & _).
  destruct r0 as [[]|e0|]; simpl; try (left; exact T0).
  destruct (ID <$> filter _ (software (current st0))) as [|id0 ids]; simpl;
    [|left; exact T0].
  destruct (roundTrip (Stmt (InsertIgnoreSoftware _ _ _)) st0) as [r1 st1] eqn:E1.
  apply roundTrip_inv in E1 as (T1 & _).
  rewrite T0, <- app_assoc in T1. right.
  destruct r1 as [[]|e1|]; simpl; try exact T1.
  destruct (existsb _ _); simpl; [exact T1|].
  unfold bump. simpl. rewrite trace_write. exact T1.
Qed.

(** When the SELECT finds no row and the INSERT IGNORE meets a row of the
    triple, the function returns the insert id 0 of the ignored insert. *)
Lemma getOrGenerateSoftwareId_ignored (tx : Tx) (s : Software) (st st0 st1 : State) :
  roundTrip (Stmt (SelectSoftwareId (Name s) (Version s) (Source s))) st = (Ok tt, st0) ->
  filter (fun r => sameTriple (Name s) (Version s) (Source s) r = true)
         (software (current st0)) = [] ->
  roundTrip (Stmt (InsertIgnoreSoftware (Name s) (Version s) (Source s))) st0
  = (Ok tt, st1) ->
  existsb (sameTriple (Name s) (Version s) (Source s)) (software (current st1)) = true ->
  getOrGenerateSoftwareId tx s st = (Ok 0, st1).
Proof.
  intros E0 Hnone E1 Hthere.
  unfold getOrGenerateSoftwareId, selectSoftwareId, insertIgnoreSoftware,
    LastInsertId, wrapErr, bind, ret.
  rewrite E0, Hnone. simpl. rewrite E1, Hthere. reflexivity.
Qed.

(** C1.  The run of [getOrGenerateSoftwareId] on [B 2 npm] in [raceState]:
    the SELECT finds no row, the INSERT IGNORE meets the row that the other
    session has committed meanwhile and writes nothing, and the function
    returns the insert id of that statement, 0.  The row of the triple has
    the identifier 2; the catalog is not read again after the insert. *)
Theorem getOrGenerateSoftwareId_ignored_insert :
  let s := {| ID := 0; Name := "B"; Version := "2"; Source := "npm" |} in
  exists st',
    getOrGenerateSoftwareId TxHandle s raceState = (Ok 0, st')
    /\ trace st' = [Begin; Stmt (SelectSoftwareId "B" "2" "npm");
                    Stmt (InsertIgnoreSoftware "B" "2" "npm")]
    /\ ID <$> filter (fun r => sameTriple "B" "2" "npm" r = true)
                     (software (current st')) = [2].
Proof.
  intros s. eexists. split; [vm_compute; reflexivity|]. split; reflexivity.
Qed.


(** ** The scenarios of the specification *)

(** Scenario A: the host reports what is stored.  One read, no write. *)
Example scenario_unchanged :
  SaveHostSoftware (mkDatastore 2) (mkHost 7 (mkHostSoftware [softwareA] true)) exampleState
  = (Ok tt, mkHost 7 (mkHostSoftware [softwareA] false),
     mkState (db exampleState) None 2 []
             [Begin; Stmt (SelectHostSoftware 7); Commit]).
Proof. vm_compute. reflexivity. Qed.

(** Scenario B: the host reports one more entry.  The catalog gains its row
    and the host one membership row. *)
Example scenario_added :
  SaveHostSoftware (mkDatastore 2)
    (mkHost 7 (mkHostSoftware [softwareA; softwareB] true)) exampleState
  = (Ok tt, mkHost 7 (mkHostSoftware [softwareA; softwareB] false),
     mkState (mkStore [ {| ID := 1; Name := "A"; Version := "1"; Source := "apt" |};
                        {| ID := 2; Name := "B"; Version := "2"; Source := "npm" |} ]
                      [(7, 1); (7, 2)])
             None 3 []
             [Begin; Stmt (SelectHostSoftware 7);
              Stmt (SelectSoftwareId "B" "2" "npm");
              Stmt (InsertIgnoreSoftware "B" "2" "npm");
              Stmt (InsertHostSoftware [7; 2]); Commit]).
Proof. vm_compute. reflexivity. Qed.

(** Scenario C: the host reports one entry less.  One membership row goes,
    the catalog row stays, and so does the membership row of the other
    host. *)
Example scenario_removed :
  SaveHostSoftware (mkDatastore 2) (mkHost 7 (mkHostSoftware [softwareA] true)) bothState
  = (Ok tt, mkHost 7 (mkHostSoftware [softwareA] false),
     mkState (mkStore (software (db bothState)) [(7, 1); (8, 2)])
             None 3 []
             [Begin; Stmt (SelectHostSoftware 7);
              Stmt (DeleteHostSoftwareIn [7; 2]); Commit]).
Proof. vm_compute. reflexivity. Qed.

(** Scenario D: the host reports nothing.  One deletion of all its
    membership rows, and nothing else. *)
Example scenario_emptied :
  SaveHostSoftware (mkDatastore 2) (mkHost 7 (mkHostSoftware [] true)) bothState
  = (Ok tt, mkHost 7 (mkHostSoftware [] false),
     mkState (mkStore (software (db bothState)) [(8, 2)])
             None 3 []
             [Begin; Stmt (DeleteHostSoftware 7); Commit]).
Proof. vm_compute. reflexivity. Qed.

(** A transient failure of the deletion: the transaction is rolled back and
    run again. *)
Example scenario_emptied_retried :
  SaveHostSoftware (mkDatastore 2) (mkHost 7 (mkHostSoftware [] true))
    (mkState (db bothState) None 3
             [quiet; mkEvent [] (Some (StoreError true "deadlock"))] [])
  = (Ok tt, mkHost 7 (mkHostSoftware [] false),
     mkState (mkStore (software (db bothState)) [(8, 2)])
             None 3 []
             [Begin; Stmt (DeleteHostSoftware 7); Rollback;
              Begin; Stmt (DeleteHostSoftware 7); Commit]).
Proof. vm_compute. reflexivity. Qed.

(** The race of the catalog resolver inside a whole save: the membership row
    is sent with the identifier 0, which the store refuses. *)
Example scenario_added_race :
  (SaveHostSoftware (mkDatastore 2)
     (mkHost 7 (mkHostSoftware [softwareA; softwareB] true))
     (mkState (db exampleState) None 2
              [quiet; quiet; quiet; mkEvent [softwareB] None] [])).1
  = (Err (Wrap (Wrap errForeignKey "insert host software") "save host software"),
     mkHost 7 (mkHostSoftware [softwareA; softwareB] true)).
Proof. vm_compute. reflexivity. Qed.


(** * Further properties of the code *)

(** ** Truncation and keys *)

Lemma substring_0_prefix (n : nat) (s : string) :
  exists rest, s = String.substring 0 n s +:+ rest.
Proof.
  revert s. induction n as [|n IH]; intros [|x s]; simpl.
  - exists "". reflexivity.
  - exists (String x s). reflexivity.
  - exists "". reflexivity.
  - destruct (IH s) as [rest Hrest]. exists rest.
    change (String x s = String x (String.substring 0 n s +:+ rest)).
    f_equal. exact Hrest.
Qed.

Lemma append_empty_r (s : string) : s = s +:+ "".
Proof.
  induction s as [|x s IH]; [reflexivity|].
  change (String x s = String x (s +:+ "")). f_equal. exact IH.
Qed.

Lemma len_nonneg (s : string) : 0 <= len s.
Proof. unfold len. lia. Qed.

Lemma len_truncated (s : string) (limit : Z) :
  0 <= limit -> len (truncated s limit) = Z.min (len s) limit.
Proof.
  intros H. destruct (Z_lt_le_dec limit (len s)) as [Hlt|Hle].
  - destruct (truncated_long s limit) as [_ ->]; lia.
  - rewrite truncated_short by lia. lia.
Qed.

(** X1.  [truncateString] panics exactly for a negative length.  Otherwise
    it returns a prefix of its argument, of the argument's length or of the
    length asked for, whichever is smaller; truncating the result again
    changes nothing. *)
Theorem truncateString_prefix_of_bounded_length (str : string) (limit : Z) :
  (truncateString str limit = None <-> limit < 0)
  /\ forall t, truncateString str limit = Some t ->
       (exists rest, str = t +:+ rest)
       /\ len t = Z.min (len str) limit
       /\ truncateString t limit = Some t.
Proof.
  pose proof (len_nonneg str) as Hlen. split.
  - unfold truncateString.
    destruct (len str >? limit) eqn:E1; destruct (limit <? 0) eqn:E2;
      split; intros H; try discriminate; try reflexivity; lia.
  - intros t Ht.
    assert (Hlimit : 0 <= limit).
    { destruct (Z_lt_le_dec limit 0) as [Hneg|]; [|assumption].
      unfold truncateString in Ht.
      destruct (len str >? limit) eqn:E1; [|lia].
      destruct (limit <? 0) eqn:E2; [discriminate|lia]. }
    rewrite truncateString_truncated in Ht by exact Hlimit.
    injection Ht as <-.
    split; [|split].
    + unfold truncated. destruct (len str >? limit).
      * apply substring_0_prefix.
      * exists "". apply append_empty_r.
    + apply len_truncated. exact Hlimit.
    + rewrite truncateString_truncated by exact Hlimit. f_equal.
      apply truncated_short. rewrite len_truncated by exact Hlimit. lia.
Qed.

Lemma append_separator_inj (c : ascii) (a a' r r' : string) :
  free_of c a -> free_of c a' ->
  a +:+ String c r = a' +:+ String c r' -> a = a' /\ r = r'.
Proof.
  unfold free_of. revert a'. induction a as [|x a IH]; intros [|x' a']; simpl.
  - intros _ _ H. injection H as ->. auto.
  - destruct (Ascii.eqb_spec x' c) as [->|Hne]; [discriminate|].
    intros _ _ H. injection H as <- _. contradiction.
  - destruct (Ascii.eqb_spec x c) as [->|Hne]; [discriminate|].
    intros _ _ H. injection H as -> _. contradiction.
  - destruct (Ascii.eqb x c); [discriminate|].
    destruct (Ascii.eqb x' c); [discriminate|].
    intros Ha Ha' H. injection H as -> H.
    destruct (IH a' Ha Ha' H) as [-> ->]. auto.
Qed.

(** X2.  Two entries whose names and versions hold no separator byte have
    the same dedup key only if they have the same name, version and
    source. *)
Theorem softwareToUniqueString_injective (a b : Software) :
  free_of NUL (Name a) -> free_of NUL (Version a) ->
  free_of NUL (Name b) -> free_of NUL (Version b) ->
  softwareToUniqueString a = softwareToUniqueString b ->
  Name a = Name b /\ Version a = Version b /\ Source a = Source b.
Proof.
  intros Hna Hva Hnb Hvb H. rewrite !softwareToUniqueString_eq in H.
  apply append_separator_inj in H as [Hn H]; [|assumption..].
  apply append_separator_inj in H as [Hv Hs]; [|assumption..].
  auto.
Qed.

Lemma softwareToUniqueString_injective_witness :
  let a := {| ID := 3; Name := "vim"; Version := "8.2"; Source := "apt" |} in
  let b := {| ID := 0; Name := "vim"; Version := "8.2"; Source := "apt" |} in
  softwareToUniqueString a = softwareToUniqueString b
  /\ Name a = Name b /\ Version a = Version b /\ Source a = Source b.
Proof.
  intros a b.
  assert (H : softwareToUniqueString a = softwareToUniqueString b) by reflexivity.
  split; [exact H|].
  apply (softwareToUniqueString_injective a b); (exact H || reflexivity).
Defined.

(** X3.  Whatever string is decoded, the entry that comes out has the zero
    identifier, a name and a version of at most 255 bytes and a source of at
    most 64 bytes. *)
Theorem uniqueStringToSoftware_within_limits (s : string) (r : Software) :
  uniqueStringToSoftware s = Some r ->
  ID r = 0
  /\ len (Name r) <= maxSoftwareNameLen
  /\ len (Version r) <= maxSoftwareVersionLen
  /\ len (Source r) <= maxSoftwareSourceLen.
Proof.
  unfold uniqueStringToSoftware.
  destruct (Split s NUL) as [|p0 [|p1 [|p2 ps]]]; simpl;
    rewrite ?truncateString_truncated by (vm_compute; discriminate); simpl;
    rewrite ?truncateString_truncated by (vm_compute; discriminate); simpl;
    rewrite ?truncateString_truncated by (vm_compute; discriminate); simpl;
    try discriminate.
  intros H. injection H as <-. simpl.
  rewrite !len_truncated by (vm_compute; discriminate).
  repeat split; lia.
Qed.

Lemma uniqueStringToSoftware_within_limits_witness :
  let s := softwareToUniqueString
             {| ID := 9; Name := string_of_list_ascii (repeat "n"%char 400);
                Version := "2"; Source := string_of_list_ascii (repeat "s"%char 100) |} in
  exists r, uniqueStringToSoftware s = Some r
            /\ len (Name r) <= maxSoftwareNameLen
            /\ len (Source r) <= maxSoftwareSourceLen.
Proof.
  intros s.
  destruct (uniqueStringToSoftware s) as [r|] eqn:E; [|vm_compute in E; discriminate].
  exists r. split; [reflexivity|].
  destruct (uniqueStringToSoftware_within_limits s r E) as (_ & Hn & _ & Hs).
  split; assumption.
Defined.

(** ** The maps built from a collection *)

Lemma idMap_fold_lookup (l : list Software) (m : gmap string Z) (k : string) :
  foldl (fun result s => <[softwareToUniqueString s := ID s]> result) m l !! k
  = match last (filter (fun s => softwareToUniqueString s = k) l) with
    | Some s => Some (ID s)
    | None => m !! k
    end.
Proof.
  revert m. induction l as [|s l IH]; intros m; simpl; [reflexivity|].
  rewrite IH. rewrite filter_cons.
  destruct (decide (softwareToUniqueString s = k)) as [Hk|Hk].
  - destruct (filter _ l) as [|s' l'] eqn:E; simpl.
    + rewrite <- Hk. apply lookup_insert_eq.
    + change (last (s :: s' :: l')) with (last (s' :: l')).
      destruct (last (s' :: l')) eqn:EL; [reflexivity|].
      apply last_None in EL. discriminate.
  - destruct (last (filter _ l)); [reflexivity|].
    apply lookup_insert_ne. exact Hk.
Qed.

(** X4.  The set built from a collection holds exactly the dedup keys of its
    entries, each with the value [true]. *)
Theorem softwareSliceToSet_holds_the_keys (softwares : list Software) (k : string) :
  softwareSliceToSet softwares !! k
  = if decide (k ∈ keys softwares) then Some true else None.
Proof.
  unfold softwareSliceToSet.
  assert (G : forall (l : list Software) (m : gmap string bool),
    foldl (fun result s => <[softwareToUniqueString s := true]> result) m l !! k
    = if decide (k ∈ keys l) then Some true else m !! k).
  { induction l as [|s l IH]; intros m; simpl.
    - destruct (decide (k ∈ keys [])) as [H|H]; [|reflexivity].
      apply elem_of_nil in H. contradiction.
    - rewrite IH. change (keys (s :: l)) with (softwareToUniqueString s :: keys l).
      destruct (decide (k ∈ keys l)) as [H|H].
      + rewrite decide_True; [reflexivity|]. apply elem_of_cons. right. exact H.
      + destruct (decide (softwareToUniqueString s = k)) as [<-|Hne].
        * rewrite lookup_insert_eq, decide_True; [reflexivity|].
          apply elem_of_cons. left. reflexivity.
        * rewrite lookup_insert_ne by exact Hne. rewrite decide_False; [reflexivity|].
          intros Hin. apply elem_of_cons in Hin as [->|Hin]; auto. }
  rewrite G. destruct (decide _); [reflexivity|apply lookup_empty].
Qed.

(** X5.  The identifier map built from a collection gives, for a dedup key,
    the identifier of the last entry with that key, and nothing for a key
    that no entry has. *)
Theorem softwareSliceToIdMap_last_entry_wins (softwareSlice : list Software) (k : string) :
  softwareSliceToIdMap softwareSlice !! k
  = ID <$> last (filter (fun s => softwareToUniqueString s = k) softwareSlice).
Proof.
  unfold softwareSliceToIdMap. rewrite idMap_fold_lookup.
  destruct (last _); [reflexivity|apply lookup_empty].
Qed.

(** ** The set differ, duplicates or not *)

(** X6.  [nothingChanged] answers true exactly when the two collections
    have the same number of entries and every dedup key of the incoming one
    is a key of the current one.  So repeated entries can hide a change:
    against as many copies of one of its entries as it has entries, any
    collection is reported unchanged. *)
Theorem nothingChanged_length_and_inclusion (current incoming : list Software) :
  (nothingChanged current incoming = true
   <-> length current = length incoming
       /\ forall k, k ∈ keys incoming -> k ∈ keys current)
  /\ forall s, s ∈ current ->
       nothingChanged current (replicate (length current) s) = true.
Proof.
  split; [apply nothingChanged_spec|].
  intros s Hs. apply nothingChanged_spec.
  split; [rewrite length_replicate; reflexivity|].
  intros k Hk. unfold keys in Hk. rewrite fmap_replicate in Hk.
  apply elem_of_replicate in Hk as [-> _].
  apply list_elem_of_fmap. exists s. split; [reflexivity|exact Hs].
Qed.

(** X7.  The answer of [nothingChanged] depends on the dedup keys of the two
    collections only, not on their order or on the identifiers: collections
    whose key lists are rearrangements of the given ones get the same
    answer.  A collection is unchanged against itself. *)
Theorem nothingChanged_keys_only (A A' B B' : list Software) :
  keys A ≡ₚ keys A' -> keys B ≡ₚ keys B' ->
  nothingChanged A B = nothingChanged A' B'
  /\ nothingChanged A A = true.
Proof.
  intros HA HB.
  assert (LA : length A = length A').
  { apply Permutation_length in HA. unfold keys in HA.
    rewrite !length_fmap in HA. exact HA. }
  assert (LB : length B = length B').
  { apply Permutation_length in HB. unfold keys in HB.
    rewrite !length_fmap in HB. exact HB. }
  split.
  - assert (Hiff : nothingChanged A B = true <-> nothingChanged A' B' = true).
    { rewrite !nothingChanged_spec. rewrite LA, LB.
      split; intros [HL Hsub]; (split; [exact HL|]); intros k Hk.
      - rewrite <- HA. apply Hsub. rewrite HB. exact Hk.
      - rewrite HA. apply Hsub. rewrite <- HB. exact Hk. }
    destruct (nothingChanged A B), (nothingChanged A' B'); try reflexivity.
    + symmetry. apply Hiff. reflexivity.
    + apply Hiff. reflexivity.
  - apply nothingChanged_spec. auto.
Qed.

Lemma nothingChanged_keys_only_witness :
  let stored := [ {| ID := 1; Name := "A"; Version := "1"; Source := "apt" |};
                  {| ID := 2; Name := "B"; Version := "2"; Source := "npm" |} ] in
  let staged := [softwareB; softwareA] in
  keys stored ≡ₚ keys staged
  /\ nothingChanged stored stored = nothingChanged staged staged.
Proof.
  intros stored staged.
  assert (H : keys stored ≡ₚ keys staged) by apply Permutation_swap.
  split; [exact H|].
  apply (nothingChanged_keys_only stored staged stored staged H H).
Defined.

(** ** The store when nothing interferes *)

(** With no event left in the script, a round trip succeeds and changes
    nothing but the trace. *)
Lemma roundTrip_calm (a : action) (st : State) :
  script st = [] -> roundTrip a st = (Ok tt, log a st).
Proof.
  intros H. unfold roundTrip. rewrite H. simpl.
  destruct st as [d v ai sc tr]. simpl in *. subst sc. reflexivity.
Qed.

Lemma current_write (f : Store -> Store) (st : State) :
  current (write f st) = f (current st).
Proof. unfold write, current. destruct (view st); reflexivity. Qed.

Lemma current_log (a : action) (st : State) : current (log a st) = current st.
Proof. reflexivity. Qed.

Lemma current_bump (st : State) : current (bump st) = current st.
Proof. reflexivity. Qed.

Lemma auto_increment_write (f : Store -> Store) (st : State) :
  auto_increment (write f st) = auto_increment st.
Proof. unfold write. destruct (view st); reflexivity. Qed.

Lemma script_write (f : Store -> Store) (st : State) :
  script (write f st) = script st.
Proof. unfold write. destruct (view st); reflexivity. Qed.

Lemma existsb_filter_nil {A} (f : A -> bool) (l : list A) :
  filter (fun x => f x = true) l = [] <-> existsb f l = false.
Proof.
  induction l as [|x l IH]; simpl; [tauto|].
  rewrite filter_cons. destruct (decide (f x = true)) as [E|E].
  - rewrite E. simpl. split; discriminate.
  - apply not_true_is_false in E. rewrite E. simpl. exact IH.
Qed.

(** ** The catalog resolver when nothing interferes *)

Lemma resolver_found (tx : Tx) (s : Software) (st : State) (row : Software)
    (rows : list Software) :
  script st = [] ->
  filter (fun r => sameTriple (Name s) (Version s) (Source s) r = true)
         (software (current st)) = row :: rows ->
  getOrGenerateSoftwareId tx s st
  = (Ok (uint (ID row)),
     log (Stmt (SelectSoftwareId (Name s) (Version s) (Source s))) st).
Proof.
  intros Hcalm Hrow.
  unfold getOrGenerateSoftwareId, selectSoftwareId, bind, ret.
  rewrite roundTrip_calm by exact Hcalm. rewrite current_log, Hrow. reflexivity.
Qed.

Lemma resolver_fresh (tx : Tx) (s : Software) (st : State) :
  script st = [] ->
  filter (fun r => sameTriple (Name s) (Version s) (Source s) r = true)
         (software (current st)) = [] ->
  getOrGenerateSoftwareId tx s st
  = (Ok (uint (auto_increment st)),
     bump (write (addSoftware {| ID := auto_increment st; Name := Name s;
                                 Version := Version s; Source := Source s |})
            (log (Stmt (InsertIgnoreSoftware (Name s) (Version s) (Source s)))
               (log (Stmt (SelectSoftwareId (Name s) (Version s) (Source s))) st)))).
Proof.
  intros Hcalm Hnone.
  unfold getOrGenerateSoftwareId, selectSoftwareId, insertIgnoreSoftware,
    LastInsertId, wrapErr, bind, ret.
  rewrite roundTrip_calm by exact Hcalm. rewrite current_log, Hnone. simpl.
  rewrite roundTrip_calm by exact Hcalm. rewrite !current_log.
  apply existsb_filter_nil in Hnone. rewrite Hnone. reflexivity.
Qed.

Lemma sameTriple_self (s : Software) (i : Z) :
  sameTriple (Name s) (Version s) (Source s)
    {| ID := i; Name := Name s; Version := Version s; Source := Source s |} = true.
Proof. unfold sameTriple. simpl. rewrite !bool_decide_eq_true_2 by reflexivity. reflexivity. Qed.

(** X8.  With no interference from the store or other sessions,
    [getOrGenerateSoftwareId] returns the identifier of the first catalog
    row of the triple, after a SELECT alone, when there is such a row; when
    there is none it appends one row of the triple, with the next
    AUTO_INCREMENT value as identifier, and returns that.  Membership rows
    are not touched. *)
Theorem getOrGenerateSoftwareId_gets_or_creates (tx : Tx) (s : Software) (st : State) :
  script st = [] ->
  let sel := Stmt (SelectSoftwareId (Name s) (Version s) (Source s)) in
  let ins := Stmt (InsertIgnoreSoftware (Name s) (Version s) (Source s)) in
  exists id st',
    getOrGenerateSoftwareId tx s st = (Ok id, st')
    /\ host_software (current st') = host_software (current st)
    /\ match filter (fun r => sameTriple (Name s) (Version s) (Source s) r = true)
                    (software (current st)) with
       | row :: _ => id = uint (ID row) /\ st' = log sel st
       | [] =>
           id = uint (auto_increment st)
           /\ software (current st')
              = software (current st)
                ++ [ {| ID := auto_increment st; Name := Name s;
                        Version := Version s; Source := Source s |} ]
           /\ auto_increment st' = auto_increment st + 1
           /\ trace st' = trace st ++ [sel; ins]
       end.
Proof.
  intros Hcalm sel ins.
  destruct (filter _ (software (current st))) as [|row rows] eqn:E.
  - eexists _, _. split; [apply resolver_fresh; assumption|].
    split; [rewrite current_bump, current_write; reflexivity|].
    split; [reflexivity|].
    split; [rewrite current_bump, current_write; reflexivity|].
    split; [unfold bump; simpl; rewrite auto_increment_write; reflexivity|].
    unfold bump. simpl. rewrite trace_write. simpl.
    rewrite <- app_assoc. reflexivity.
  - eexists _, _. split; [eapply resolver_found; eassumption|].
    repeat split.
Qed.

Lemma getOrGenerateSoftwareId_gets_or_creates_witness :
  script exampleState = []
  /\ exists st', getOrGenerateSoftwareId TxHandle softwareB exampleState = (Ok 2, st')
                 /\ software (current st')
                    = software (current exampleState)
                      ++ [ {| ID := 2; Name := "B"; Version := "2"; Source := "npm" |} ].
Proof.
  split; [reflexivity|].
  destruct (getOrGenerateSoftwareId_gets_or_creates TxHandle softwareB exampleState eq_refl)
    as (id & st' & H & _ & Hcase).
  exists st'. vm_compute in Hcase. destruct Hcase as (-> & Hsw & _).
  split; [exact H|]. vm_compute. exact Hsw.
Defined.

(** X9.  With no interference, resolving a triple a second time returns the
    identifier that the first call returned, after a SELECT alone: the row
    is created at most once. *)
Theorem getOrGenerateSoftwareId_stable (tx : Tx) (s : Software) (st st1 : State) (id : Z) :
  script st = [] ->
  getOrGenerateSoftwareId tx s st = (Ok id, st1) ->
  getOrGenerateSoftwareId tx s st1
  = (Ok id, log (Stmt (SelectSoftwareId (Name s) (Version s) (Source s))) st1).
Proof.
  intros Hcalm H.
  destruct (filter (fun r => sameTriple (Name s) (Version s) (Source s) r = true)
                   (software (current st))) as [|row rows] eqn:E.
  - rewrite resolver_fresh in H by assumption. injection H as <- <-.
    apply (resolver_found tx s _
             {| ID := auto_increment st; Name := Name s;
                Version := Version s; Source := Source s |} []).
    + unfold bump. simpl. rewrite script_write. exact Hcalm.
    + rewrite current_bump, current_write, !current_log.
      unfold addSoftware. cbn [software].
      rewrite filter_app, E. cbn [app]. rewrite filter_cons.
      rewrite decide_True by apply sameTriple_self. reflexivity.
  - rewrite (resolver_found tx s st row rows) in H by assumption.
    injection H as <- <-.
    eapply resolver_found; [exact Hcalm|]. rewrite current_log. exact E.
Qed.

Lemma getOrGenerateSoftwareId_stable_witness :
  exists st1,
    getOrGenerateSoftwareId TxHandle softwareB exampleState = (Ok 2, st1)
    /\ getOrGenerateSoftwareId TxHandle softwareB st1
       = (Ok 2, log (Stmt (SelectSoftwareId "B" "2" "npm")) st1).
Proof.
  eexists. split; [vm_compute; reflexivity|].
  apply (getOrGenerateSoftwareId_stable TxHandle softwareB exampleState _ 2 eq_refl).
  vm_compute. reflexivity.
Defined.

(** X10.  When [getOrGenerateSoftwareId] returns an error it has written
    nothing: the tables differ from before only by what other sessions
    committed.  The error is that of the SELECT as the store gave it, or
    that of the INSERT wrapped as "insert software". *)
Theorem getOrGenerateSoftwareId_error (tx : Tx) (s : Software) (st st' : State) (e : error) :
  getOrGenerateSoftwareId tx s st = (Err e, st') ->
  let sel := Stmt (SelectSoftwareId (Name s) (Version s) (Source s)) in
  let ins := Stmt (InsertIgnoreSoftware (Name s) (Version s) (Source s)) in
  (exists extra, elsewhere extra st st')
  /\ ((fault (hd quiet (script st)) = Some e /\ trace st' = trace st ++ [sel])
      \/ (exists cause,
            fault (hd quiet (tl (script st))) = Some cause
            /\ e = Wrap cause "insert software"
            /\ trace st' = trace st ++ [sel; ins])).
Proof.
  intros H sel ins. revert H.
  unfold getOrGenerateSoftwareId, selectSoftwareId, insertIgnoreSoftware,
    LastInsertId, wrapErr, bind, ret.
  destruct (roundTrip (Stmt (SelectSoftwareId _ _ _)) st) as [r0 st0] eqn:E0.
  apply roundTrip_inv in E0 as (T0 & S0 & R0 & x0 & X0 & _).
  destruct (fault (hd quiet (script st))) as [err0|] eqn:Q0; subst r0.
  { intros H. injection H as <- <-. split; [eauto|]. left. auto. }
  destruct (ID <$> filter _ (software (current st0))) as [|id0 ids]; [|discriminate].
  destruct (roundTrip (Stmt (InsertIgnoreSoftware _ _ _)) st0) as [r1 st1] eqn:E1.
  apply roundTrip_inv in E1 as (T1 & S1 & R1 & x1 & X1 & _).
  rewrite S0 in R1.
  destruct (fault (hd quiet (tl (script st)))) as [err1|] eqn:Q1; subst r1.
  - intros H. injection H as <- <-. split.
    + exists (x0 ++ x1). eapply elsewhere_trans; eassumption.
    + right. exists err1. repeat split. rewrite T1, T0, <- app_assoc. reflexivity.
  - destruct (existsb _ _); discriminate.
Qed.

Lemma getOrGenerateSoftwareId_error_witness :
  let st := mkState (db exampleState) (Some (db exampleState)) 2
                    [quiet; mkEvent [] (Some (StoreError false "gone away"))] [Begin] in
  exists st',
    getOrGenerateSoftwareId TxHandle softwareB st
    = (Err (Wrap (StoreError false "gone away") "insert software"), st')
    /\ exists extra, elsewhere extra st st'.
Proof.
  intros st. eexists. split; [vm_compute; reflexivity|].
  eapply (getOrGenerateSoftwareId_error TxHandle softwareB st).
  vm_compute. reflexivity.
Defined.

(** ** Invariants of the transaction body *)

Lemma bind_Ok {A B} (m : M A) (k : A -> M B) (st st' : State) (b : B) :
  bind m k st = (Ok b, st') ->
  exists a st1, m st = (Ok a, st1) /\ k a st1 = (Ok b, st').
Proof.
  unfold bind. destruct (m st) as [[a|e|] st1]; intros H; try discriminate. eauto.
Qed.

Lemma keeps_ret {A} (P : State -> Prop) (a : A) : keeps P (ret a).
Proof. intros st H. exact H. Qed.

Lemma keeps_bind {A B} (P : State -> Prop) (Q : A -> Prop) (m : M A) (k : A -> M B) :
  keeps P m -> yields Q m -> (forall a, Q a -> keeps P (k a)) -> keeps P (bind m k).
Proof.
  intros Hm HQ Hk st HP. unfold bind. specialize (Hm st HP).
  destruct (m st) as [[a|e|] st1] eqn:E; simpl in *; try exact Hm.
  apply (Hk a); [eapply HQ; exact E|exact Hm].
Qed.

Lemma keeps_seq {A B} (P : State -> Prop) (m : M A) (k : A -> M B) :
  keeps P m -> (forall a, keeps P (k a)) -> keeps P (bind m k).
Proof.
  intros Hm Hk. apply (keeps_bind P (fun _ => True)); auto.
  intros st a st' _. exact I.
Qed.

Lemma keeps_wrapErr {A} (P : State -> Prop) (m : M A) (message : string) :
  keeps P m -> keeps P (wrapErr m message).
Proof. intros Hm st HP. rewrite wrapErr_state. apply Hm. exact HP. Qed.

Lemma keeps_orPanic {A} (P : State -> Prop) (o : option A) : keeps P (orPanic o).
Proof. intros st HP. unfold orPanic. destruct o; exact HP. Qed.

Lemma tuples_flatPairs (host_id : Z) (ids : list Z) :
  tuples (flatPairs host_id ids) = (fun i => (host_id, i)) <$> ids.
Proof.
  induction ids as [|i ids IH]; [reflexivity|].
  change (flatPairs host_id (i :: ids)) with (host_id :: i :: flatPairs host_id ids).
  cbn [tuples]. rewrite IH. reflexivity.
Qed.

Lemma flatPairs_snoc (host_id : Z) (ids : list Z) (i : Z) :
  flatPairs host_id (ids ++ [i]) = flatPairs host_id ids ++ [host_id; i].
Proof.
  unfold flatPairs. rewrite fmap_app, concat_app. simpl. reflexivity.
Qed.

(** The insert pass collects value tuples of the host it works for. *)
Lemma collectInserts_flatPairs (tx : Tx) (hostID : Z) (currentIdmap : gmap string Z)
    (ks : list string) (ids : list Z) :
  yields (fun args => exists ids', args = flatPairs hostID ids')
         (collectInserts tx hostID currentIdmap ks (flatPairs hostID ids)).
Proof.
  revert ids. induction ks as [|k ks IH]; intros ids st a st' H; simpl in H.
  - injection H as <- _. eauto.
  - destruct (currentIdmap !! k); [eapply IH; exact H|].
    apply bind_Ok in H as (sw & st1 & _ & H).
    apply bind_Ok in H as (id & st2 & _ & H).
    rewrite <- flatPairs_snoc in H. eapply IH. exact H.
Qed.

Section BodyInvariant.

(** A property of the state that the statements of the transaction body of
    the host [hid] keep. *)
Variable P : State -> Prop.
Variable hid : Z.

Hypothesis P_selectSoftwareId :
  forall name version source, keeps P (selectSoftwareId name version source).
Hypothesis P_insertIgnoreSoftware :
  forall name version source, keeps P (insertIgnoreSoftware name version source).
Hypothesis P_deleteHostSoftware : keeps P (deleteHostSoftware hid).
Hypothesis P_deleteHostSoftwareIn :
  forall ids, keeps P (deleteHostSoftwareIn (hid :: ids)).
Hypothesis P_insertHostSoftware :
  forall ids, ids <> [] -> keeps P (insertHostSoftware (flatPairs hid ids)).
Hypothesis P_selectHostSoftware : forall tx, keeps P (selectHostSoftware tx hid).

Lemma keeps_getOrGenerateSoftwareId (tx : Tx) (s : Software) :
  keeps P (getOrGenerateSoftwareId tx s).
Proof.
  unfold getOrGenerateSoftwareId. apply keeps_seq; [apply P_selectSoftwareId|].
  intros [|id0 ids]; [|apply keeps_ret].
  apply keeps_seq; [apply keeps_wrapErr, P_insertIgnoreSoftware|].
  intros result. apply keeps_seq; [apply keeps_wrapErr, keeps_ret|].
  intros id. apply keeps_ret.
Qed.

Lemma keeps_collectInserts (tx : Tx) (currentIdmap : gmap string Z)
    (ks : list string) (acc : list Z) :
  keeps P (collectInserts tx hid currentIdmap ks acc).
Proof.
  revert acc. induction ks as [|k ks IH]; intros acc; simpl.
  - apply keeps_ret.
  - destruct (currentIdmap !! k); [apply IH|].
    apply keeps_seq; [apply keeps_orPanic|]. intros sw.
    apply keeps_seq; [apply keeps_getOrGenerateSoftwareId|]. intros id. apply IH.
Qed.

Lemma keeps_deleteUninstalledHostSoftware (tx : Tx)
    (currentIdmap : gmap string Z) (incomingBitmap : gmap string bool) :
  keeps P (deleteUninstalledHostSoftware tx hid currentIdmap incomingBitmap).
Proof.
  unfold deleteUninstalledHostSoftware.
  destruct (collectDeletes_extends currentIdmap incomingBitmap [hid]
              (rangeKeys currentIdmap)) as [ids ->].
  destruct (_ <=? _)%nat; [apply keeps_ret|].
  apply keeps_wrapErr. apply P_deleteHostSoftwareIn.
Qed.

Lemma keeps_insertNewInstalledHostSoftware (tx : Tx)
    (currentIdmap : gmap string Z) (incomingBitmap : gmap string bool) :
  keeps P (insertNewInstalledHostSoftware tx hid currentIdmap incomingBitmap).
Proof.
  unfold insertNewInstalledHostSoftware.
  apply (keeps_bind P (fun args => exists ids, args = flatPairs hid ids)).
  - apply keeps_collectInserts.
  - apply (collectInserts_flatPairs tx hid currentIdmap _ []).
  - intros args [ids ->]. destruct (_ <? _)%nat eqn:E; [|apply keeps_ret].
    apply keeps_wrapErr, P_insertHostSoftware.
    intros ->. discriminate.
Qed.

(** The transaction body of [SaveHostSoftware] keeps what its statements
    keep. *)
Lemma keeps_saveBody (host : Host) (tx : Tx) :
  Host_ID host = hid -> keeps P (saveBody host tx).
Proof.
  intros Hid. unfold saveBody. rewrite Hid. destruct (_ =? _)%nat.
  - apply keeps_seq; [|intros; apply keeps_ret].
    apply keeps_wrapErr, P_deleteHostSoftware.
  - apply keeps_seq; [|intros; apply keeps_ret].
    unfold applyChangesForNewSoftware. rewrite Hid.
    apply keeps_seq.
    { apply keeps_wrapErr. unfold hostSoftwareFromHostID.
      apply keeps_wrapErr, P_selectHostSoftware. }
    intros stored. destruct (nothingChanged _ _); [apply keeps_ret|].
    apply keeps_seq; [apply keeps_deleteUninstalledHostSoftware|]. intros _.
    apply keeps_seq; [apply keeps_insertNewInstalledHostSoftware|]. intros _.
    apply keeps_ret.
Qed.

End BodyInvariant.

(** ** Saving clears the flag exactly on commit *)












Lemma existsb_sameTriple_absent (name version source : string) (rows : list Software) :
  existsb (sameTriple name version source) rows = false ->
  (name, version, source) ∉ tripleOf <$> rows.
Proof.
  induction rows as [|r rows IH]; simpl; intros H Hin.
  - apply elem_of_nil in Hin. contradiction.
  - apply orb_false_elim in H as [Hr Hrows].
    apply elem_of_cons in Hin as [Heq|Hin]; [|exact (IH Hrows Hin)].
    unfold tripleOf in Heq. injection Heq as -> -> ->.
    unfold sameTriple in Hr. rewrite !bool_decide_eq_true_2 in Hr by reflexivity.
    discriminate.
Qed.

Section StoreInvariant.

(** A property of the tables that survives a new catalog row of a triple
    that was not there, and the three membership writes of the host
    [hid]. *)
Variable Pc : Store -> Prop.
Variable hid : Z.

Hypothesis Pc_addSoftware :
  forall s row,
    existsb (sameTriple (Name row) (Version row) (Source row)) (software s) = false ->
    Pc s -> Pc (addSoftware row s).
Hypothesis Pc_cleared : forall s, Pc s -> Pc (cleared hid s).
Hypothesis Pc_deleteIn :
  forall s (ids : list Z),
    Pc s ->
    Pc (setHostSoftware
          (filter (fun r => ¬ (r.1 = hid /\ r.2 ∈ ids)) (host_software s)) s).
Hypothesis Pc_insert :
  forall s (ids : list Z),
    Pc s ->
    Pc (setHostSoftware (host_software s ++ ((fun i => (hid, i)) <$> ids)) s).

Lemma Pc_commitElsewhere (st : State) (t : Software) :
  Pc (current st) -> Pc (current (commitElsewhere st t)).
Proof.
  intros H. unfold commitElsewhere.
  destruct (existsb _ _) eqn:E; [exact H|].
  assert (Hcur : forall row d v a sc tr,
            current (mkState (addSoftware row d) (addSoftware row <$> v) a sc tr)
            = addSoftware row (default d v)).
  { intros row d v a sc tr. destruct v; reflexivity. }
  rewrite Hcur. apply Pc_addSoftware; [exact E|exact H].
Qed.

Lemma Pc_roundTrip (a : action) : keeps (fun st => Pc (current st)) (roundTrip a).
Proof.
  intros st H. unfold roundTrip.
  set (st1 := mkState (db st) (view st) (auto_increment st) (tl (script st)) (trace st)).
  assert (H1 : Pc (current st1)) by exact H.
  assert (G : forall ts st0, Pc (current st0) -> Pc (current (foldl commitElsewhere st0 ts))).
  { induction ts as [|t ts IH]; intros st0 H0; simpl; [exact H0|].
    apply IH, Pc_commitElsewhere, H0. }
  specialize (G (concurrent (hd quiet (script st))) st1 H1).
  destruct (fault _); simpl; exact G.
Qed.

Lemma Pc_statement {A} (a : action) (g : M A) :
  keeps (fun st => Pc (current st)) g ->
  keeps (fun st => Pc (current st)) (roundTrip a ;; g).
Proof. intros Hg. apply keeps_seq; [apply Pc_roundTrip|intros _; exact Hg]. Qed.

(** Every statement of the transaction body keeps the property, so the body
    does, under any behaviour of the store and of other sessions. *)
Lemma saveBody_keeps_store (host : Host) (tx : Tx) :
  Host_ID host = hid -> keeps (fun st => Pc (current st)) (saveBody host tx).
Proof.
  apply keeps_saveBody.
  - intros name version source. apply Pc_statement. intros st H. exact H.
  - intros name version source. apply Pc_statement. intros st H.
    destruct (existsb _ _) eqn:E; simpl; [exact H|].
    rewrite current_bump, current_write. apply Pc_addSoftware; assumption.
  - apply Pc_statement. intros st H. simpl. rewrite current_write.
    apply Pc_cleared. exact H.
  - intros ids. apply Pc_statement. destruct ids as [|i ids]; intros st H; [exact H|].
    simpl. rewrite current_write. apply (Pc_deleteIn _ (i :: ids)). exact H.
  - intros ids _. apply Pc_statement. intros st H. cbv beta zeta.
    destruct (bool_decide _); [|exact H].
    destruct (forallb _ _); [|exact H].
    simpl. rewrite current_write, tuples_flatPairs. apply Pc_insert. exact H.
  - intros tx'. apply Pc_statement. intros st H. exact H.
Qed.

End StoreInvariant.

Lemma uniqueTriples_addSoftware (s : Store) (row : Software) :
  existsb (sameTriple (Name row) (Version row) (Source row)) (software s) = false ->
  uniqueTriples s -> uniqueTriples (addSoftware row s).
Proof.
  intros E H. unfold uniqueTriples, addSoftware in *. simpl.
  rewrite fmap_app. apply NoDup_app. split; [exact H|]. split.
  - intros t Ht Hin. apply list_elem_of_singleton in Hin. subst t.
    exact (existsb_sameTriple_absent _ _ _ _ E Ht).
  - apply NoDup_singleton.
Qed.

(** X11.  Whatever the store and other sessions do, the transaction body of
    [SaveHostSoftware] keeps the triples of the catalog unique: when no two
    rows of the catalog it works on have the same name, version and source
    before, none have after, whether the body succeeds or fails. *)
Theorem saveBody_keeps_triples_unique (host : Host) (tx : Tx) (st : State) :
  uniqueTriples (current st) ->
  uniqueTriples (current (saveBody host tx st).2).
Proof.
  intros H.
  apply (saveBody_keeps_store uniqueTriples (Host_ID host)); auto.
  intros s row. apply uniqueTriples_addSoftware.
Qed.

Lemma saveBody_keeps_triples_unique_witness :
  let st := mkState (db exampleState) (Some (db exampleState)) 2
                    [quiet; mkEvent [softwareB] None] [Begin] in
  uniqueTriples (current st)
  /\ uniqueTriples (current (saveBody exampleHost TxHandle st).2).
Proof.
  intros st.
  assert (H : uniqueTriples (current st))
    by (apply (bool_decide_unpack _); vm_compute; exact I).
  split; [exact H|].
  apply (saveBody_keeps_triples_unique exampleHost TxHandle st H).
Defined.

(** X12.  Whatever the store and other sessions do, the transaction body of
    [SaveHostSoftware] leaves the membership rows of every other host as
    they are, whether it succeeds or fails. *)
Theorem saveBody_keeps_other_hosts (host : Host) (tx : Tx) (st : State) :
  othersRows (Host_ID host) (current (saveBody host tx st).2)
  = othersRows (Host_ID host) (current st).
Proof.
  apply (saveBody_keeps_store
           (fun s => othersRows (Host_ID host) s = othersRows (Host_ID host) (current st))
           (Host_ID host)); auto.
  - intros s H. rewrite <- H. unfold othersRows, cleared. simpl.
    apply list_filter_filter_l. intros r Hr. exact Hr.
  - intros s ids H. rewrite <- H. unfold othersRows. simpl.
    rewrite list_filter_filter. apply list_filter_iff.
    intros r. split; [intros [Hne _]; exact Hne|].
    intros Hne. split; [exact Hne|]. intros [Heq _]. contradiction.
  - intros s ids H. rewrite <- H. unfold othersRows. simpl.
    rewrite filter_app.
    assert (Hnil : filter (fun r : Z * Z => r.1 ≠ Host_ID host)
                     ((fun i => (Host_ID host, i)) <$> ids) = []).
    { induction ids as [|i ids IH]; [reflexivity|].
      rewrite fmap_cons, filter_cons. simpl.
      rewrite decide_False by (intros Hne; apply Hne; reflexivity). exact IH. }
    rewrite Hnil. apply app_nil_r.
Qed.

(** X13.  Whatever the store and other sessions do, the transaction body of
    [SaveHostSoftware] never removes or changes a catalog row: the catalog
    afterwards starts with the rows it had, in their order. *)
Theorem saveBody_keeps_catalog_rows (host : Host) (tx : Tx) (st : State) :
  exists extra,
    software (current (saveBody host tx st).2) = software (current st) ++ extra.
Proof.
  apply (saveBody_keeps_store
           (fun s => exists extra, software s = software (current st) ++ extra)
           (Host_ID host)); auto.
  - intros s row _ [extra H]. exists (extra ++ [row]).
    unfold addSoftware. simpl. rewrite H, app_assoc. reflexivity.
  - exists []. rewrite app_nil_r. reflexivity.
Qed.

(** ** The two passes *)

Lemma rangeKeys_elem {V} (m : gmap string V) (k : string) :
  k ∈ rangeKeys m <-> is_Some (m !! k).
Proof.
  split; [apply rangeKeys_lookup|].
  intros [v Hv]. unfold rangeKeys. apply list_elem_of_fmap.
  exists (k, v). split; [reflexivity|]. apply elem_of_map_to_list. exact Hv.
Qed.

Lemma collectDeletes_eq (currentIdmap : gmap string Z)
    (incomingBitmap : gmap string bool) (start : list Z) (ks : list string) :
  collectDeletes currentIdmap incomingBitmap start ks
  = start ++ ((fun k => default 0 (currentIdmap !! k))
              <$> filter (fun k => incomingBitmap !! k = None) ks).
Proof.
  revert start. induction ks as [|k ks IH]; intros start; simpl.
  - rewrite app_nil_r. reflexivity.
  - rewrite filter_cons. destruct (incomingBitmap !! k) as [b|] eqn:E.
    + rewrite decide_False by discriminate. apply IH.
    + rewrite decide_True by reflexivity. rewrite IH, <- app_assoc. reflexivity.
Qed.

(** The identifiers the delete pass collects are those of the keys of the
    current map that the incoming set does not hold. *)
Lemma collectDeletes_stale (currentIdmap : gmap string Z)
    (incomingBitmap : gmap string bool) (hostID : Z) :
  exists ids,
    collectDeletes currentIdmap incomingBitmap [hostID] (rangeKeys currentIdmap)
    = hostID :: ids
    /\ forall x, x ∈ ids
         <-> exists k, currentIdmap !! k = Some x /\ incomingBitmap !! k = None.
Proof.
  rewrite collectDeletes_eq. eexists. split; [reflexivity|].
  intros x. rewrite list_elem_of_fmap. split.
  - intros (k & -> & Hk). apply list_elem_of_filter in Hk as [Hinc Hk].
    apply rangeKeys_elem in Hk as [v Hv]. exists k. rewrite Hv. auto.
  - intros (k & Hk & Hinc). exists k. rewrite Hk. split; [reflexivity|].
    apply list_elem_of_filter. split; [exact Hinc|].
    apply rangeKeys_elem. eauto.
Qed.

Lemma filter_all {A} (P : A -> Prop) `{forall x, Decision (P x)} (l : list A) :
  (forall x, x ∈ l -> P x) -> filter P l = l.
Proof.
  induction l as [|x l IH]; intros Hall; [reflexivity|].
  rewrite filter_cons_True by (apply Hall, elem_of_cons; left; reflexivity).
  f_equal. apply IH. intros y Hy. apply Hall, elem_of_cons. right. exact Hy.
Qed.

(** The delete pass when nothing interferes, in terms of the identifiers it
    collects. *)
Lemma deletePass_calm (tx : Tx) (hostID : Z) (currentIdmap : gmap string Z)
    (incomingBitmap : gmap string bool) (st : State) (ids : list Z) :
  script st = [] ->
  collectDeletes currentIdmap incomingBitmap [hostID] (rangeKeys currentIdmap)
  = hostID :: ids ->
  exists st',
    deleteUninstalledHostSoftware tx hostID currentIdmap incomingBitmap st = (Ok tt, st')
    /\ script st' = []
    /\ auto_increment st' = auto_increment st
    /\ software (current st') = software (current st)
    /\ host_software (current st')
       = filter (fun r => ¬ (r.1 = hostID /\ r.2 ∈ ids)) (host_software (current st)).
Proof.
  intros Hcalm Hids. unfold deleteUninstalledHostSoftware. rewrite Hids.
  destruct ids as [|i ids]; simpl.
  - exists st. repeat split; try assumption.
    symmetry. apply filter_all.
    intros r _ [_ Hin]. apply elem_of_nil in Hin. exact Hin.
  - unfold wrapErr, deleteHostSoftwareIn, bind.
    rewrite roundTrip_calm by exact Hcalm.
    eexists. split; [reflexivity|].
    rewrite script_write, auto_increment_write, current_write, current_log.
    repeat split. exact Hcalm.
Qed.

(** X14.  With no interference, the delete pass removes from the membership
    rows exactly the rows of the host whose identifier belongs to a key of
    the current map that is not in the incoming set; every other membership
    row stays, and the catalog is not touched. *)
Theorem deleteUninstalled_removes_the_stale_rows (tx : Tx) (hostID : Z)
    (currentIdmap : gmap string Z) (incomingBitmap : gmap string bool) (st : State) :
  script st = [] ->
  exists st',
    deleteUninstalledHostSoftware tx hostID currentIdmap incomingBitmap st = (Ok tt, st')
    /\ software (current st') = software (current st)
    /\ forall r, r ∈ host_software (current st')
         <-> r ∈ host_software (current st)
             /\ ¬ (r.1 = hostID
                   /\ exists k, currentIdmap !! k = Some r.2
                                /\ incomingBitmap !! k = None).
Proof.
  intros Hcalm.
  destruct (collectDeletes_stale currentIdmap incomingBitmap hostID)
    as (ids & Hcollect & Hids).
  destruct (deletePass_calm tx hostID currentIdmap incomingBitmap st ids Hcalm Hcollect)
    as (st' & H & _ & _ & Hsw & Hrows).
  exists st'. split; [exact H|]. split; [exact Hsw|].
  intros r. rewrite Hrows, list_elem_of_filter, <- Hids. tauto.
Qed.

Lemma deleteUninstalled_removes_the_stale_rows_witness :
  let st := mkState (db bothState) (Some (db bothState)) 3 [] [Begin] in
  let cur := softwareSliceToIdMap (software (db bothState)) in
  let inc := softwareSliceToSet [softwareA] in
  script st = []
  /\ exists st',
       deleteUninstalledHostSoftware TxHandle 7 cur inc st = (Ok tt, st')
       /\ software (current st') = software (current st).
Proof.
  intros st cur inc. split; [reflexivity|].
  destruct (deleteUninstalled_removes_the_stale_rows TxHandle 7 cur inc st eq_refl)
    as (st' & H & Hsw & _).
  exists st'. split; assumption.
Defined.

Lemma collectInserts_nothing (tx : Tx) (hostID : Z) (currentIdmap : gmap string Z)
    (ks : list string) (acc : list Z) (st : State) :
  (forall k, k ∈ ks -> is_Some (currentIdmap !! k)) ->
  collectInserts tx hostID currentIdmap ks acc st = (Ok acc, st).
Proof.
  induction ks as [|k ks IH]; intros H; simpl; [reflexivity|].
  destruct (H k) as [v ->]; [apply elem_of_cons; left; reflexivity|].
  apply IH. intros k' Hk'. apply H. apply elem_of_cons. right. exact Hk'.
Qed.

(** X15.  When every key of the incoming set is a key of the current map,
    the insert pass returns at once: it resolves no entry, sends no
    statement and leaves the state as it is. *)
Theorem insertNewInstalled_nothing_to_insert (tx : Tx) (hostID : Z)
    (currentIdmap : gmap string Z) (incomingBitmap : gmap string bool) (st : State) :
  dom incomingBitmap ⊆ dom currentIdmap ->
  insertNewInstalledHostSoftware tx hostID currentIdmap incomingBitmap st = (Ok tt, st).
Proof.
  intros Hsub. unfold insertNewInstalledHostSoftware, bind.
  rewrite collectInserts_nothing; [reflexivity|].
  intros k Hk. apply rangeKeys_lookup in Hk.
  apply elem_of_dom. apply Hsub. apply elem_of_dom. exact Hk.
Qed.

Lemma insertNewInstalled_nothing_to_insert_witness :
  let st := mkState (db bothState) (Some (db bothState)) 3 [] [Begin] in
  let cur := softwareSliceToIdMap (software (db bothState)) in
  let inc := softwareSliceToSet [softwareA] in
  dom inc ⊆ dom cur
  /\ insertNewInstalledHostSoftware TxHandle 7 cur inc st = (Ok tt, st).
Proof.
  intros st cur inc.
  assert (H : dom inc ⊆ dom cur) by (apply (bool_decide_unpack _); vm_compute; exact I).
  split; [exact H|].
  apply (insertNewInstalled_nothing_to_insert TxHandle 7 cur inc st H).
Defined.

Lemma hostSoftwareFromHostID_calm (tx : Tx) (id : Z) (st : State) :
  script st = [] ->
  hostSoftwareFromHostID (Some tx) id st
  = (Ok (persisted id (current st)), log (Stmt (SelectHostSoftware id)) st).
Proof.
  intros Hcalm. unfold hostSoftwareFromHostID, wrapErr, selectHostSoftware, bind.
  rewrite roundTrip_calm by exact Hcalm. reflexivity.
Qed.

(** X16.  With no interference, when the collection staged on the host is
    [nothingChanged] against the software persisted for it,
    [applyChangesForNewSoftware] reads the persisted software and does
    nothing else: one SELECT is sent and no table is written. *)
Theorem applyChanges_unchanged_reads_only (tx : Tx) (host : Host) (st : State) :
  script st = [] ->
  nothingChanged (persisted (Host_ID host) (current st))
                 (HostSoftware_Software (Host_HostSoftware host)) = true ->
  applyChangesForNewSoftware tx host st
  = (Ok tt, log (Stmt (SelectHostSoftware (Host_ID host))) st).
Proof.
  intros Hcalm Hsame. unfold applyChangesForNewSoftware, wrapErr, bind.
  rewrite hostSoftwareFromHostID_calm by exact Hcalm.
  rewrite Hsame. reflexivity.
Qed.

Lemma applyChanges_unchanged_reads_only_witness :
  let st := mkState (db bothState) (Some (db bothState)) 3 [] [Begin] in
  let host := mkHost 7 (mkHostSoftware [softwareB; softwareA] true) in
  script st = []
  /\ applyChangesForNewSoftware TxHandle host st
     = (Ok tt, log (Stmt (SelectHostSoftware 7)) st).
Proof.
  intros st host. split; [reflexivity|].
  apply (applyChanges_unchanged_reads_only TxHandle host st eq_refl).
  vm_compute. reflexivity.
Defined.

(** ** Reconciliation when nothing interferes *)




Lemma triple_key (a b : Software) :
  tripleOf a = tripleOf b -> softwareToUniqueString a = softwareToUniqueString b.
Proof.
  unfold tripleOf. intros H. injection H as Hn Hv Hs.
  rewrite !softwareToUniqueString_eq. congruence.
Qed.






















(** ** Saving and loading again *)








(** Inside a transaction the body stays inside it. *)
Lemma saveBody_keeps_view (host : Host) (tx : Tx) :
  keeps (fun st => is_Some (view st)) (saveBody host tx).
Proof.
  assert (Hw : forall f st, is_Some (view st) -> is_Some (view (write f st))).
  { intros f st [v Hv]. unfold write. rewrite Hv. simpl. eauto. }
  assert (Hrt : forall {A} a (g : M A),
            keeps (fun st => is_Some (view st)) g ->
            keeps (fun st => is_Some (view st)) (roundTrip a ;; g)).
  { intros A a g Hg. apply keeps_seq; [|intros _; exact Hg].
    intros st [v Hv]. destruct (roundTrip a st) as [r st1] eqn:E.
    apply roundTrip_inv in E as (_ & _ & _ & extra & [_ Hview] & _).
    simpl. rewrite Hview, Hv. simpl. eauto. }
  apply (keeps_saveBody _ (Host_ID host)); [..|reflexivity].
  - intros name version source. apply Hrt. intros st H. exact H.
  - intros name version source. apply Hrt. intros st H.
    destruct (existsb _ _); simpl; [exact H|]. apply Hw. exact H.
  - apply Hrt. intros st H. simpl. apply Hw. exact H.
  - intros ids. apply Hrt. destruct ids as [|i ids]; intros st H; [exact H|].
    simpl. apply Hw. exact H.
  - intros ids _. apply Hrt. intros st H. cbv beta zeta.
    repeat case_match; simpl; try exact H. apply Hw. exact H.
  - intros tx'. apply Hrt. intros st H. exact H.
Qed.




(** ** Loading sends one statement and writes nothing *)

(** X19.  Whatever the store and other sessions do, [LoadHostSoftware] sends
    exactly one statement, the SELECT of the host's software, and writes to
    no table: the tables differ only by what other sessions committed. *)
Theorem LoadHostSoftware_reads_only (d : Datastore) (host : Host) (st : State) :
  let st' := (LoadHostSoftware d host st).2 in
  trace st' = trace st ++ [Stmt (SelectHostSoftware (Host_ID host))]
  /\ exists extra, elsewhere extra st st' /\ Forall (fromElsewhere (script st)) extra.
Proof.
  unfold LoadHostSoftware, hostSoftwareFromHostID, wrapErr, selectHostSoftware, bind.
  simpl.
  destruct (roundTrip (Stmt (SelectHostSoftware (Host_ID host))) st) as [r0 st0] eqn:E.
  apply roundTrip_inv in E as (T & _ & _ & extra & X & F).
  destruct r0 as [[]|e|]; simpl; (split; [exact T|eauto]).
Qed.

(** ** What the body never does *)

(** X25.  [applyChangesForNewSoftware] never panics, under any behaviour of
    the store and of other sessions: the keys that the insert pass decodes
    are keys that [softwareSliceToSet] built from the staged entries, and
    these always have the two separators that [uniqueStringToSoftware]
    needs.  The same holds for the insert pass on any current map. *)
Theorem applyChangesForNewSoftware_never_panics (tx : Tx) (host : Host) (st : State) :
  (applyChangesForNewSoftware tx host st).1 <> Panic
  /\ forall (hostID : Z) (currentIdmap : gmap string Z) (softwares : list Software)
            (st0 : State),
       (insertNewInstalledHostSoftware tx hostID currentIdmap
          (softwareSliceToSet softwares) st0).1 <> Panic.
Proof.
  assert (Hins : forall hostID currentIdmap softwares,
            noPanic (insertNewInstalledHostSoftware tx hostID currentIdmap
                       (softwareSliceToSet softwares))).
  { intros hostID currentIdmap softwares.
    unfold insertNewInstalledHostSoftware. apply noPanic_bind.
    { apply noPanic_collectInserts. apply softwareSliceToSet_keys_decode. }
    intros inserts. destruct (_ <? _)%nat; [|apply noPanic_ret].
    apply noPanic_wrapErr, noPanic_statement. intros st1.
    cbv beta zeta. repeat case_match; discriminate. }
  split; [|intros; apply Hins].
  revert st. change (noPanic (applyChangesForNewSoftware tx host)).
  unfold applyChangesForNewSoftware. apply noPanic_bind.
  { apply noPanic_wrapErr, noPanic_wrapErr, noPanic_statement.
    intros st. discriminate. }
  intros stored. destruct (nothingChanged _ _); [apply noPanic_ret|].
  apply noPanic_bind; [apply noPanic_deleteUninstalledHostSoftware|].
  intros _. apply noPanic_bind; [apply Hins|intros _; apply noPanic_ret].
Qed.

(** X26.  Whatever the store and other sessions do, an INSERT into
    [host_software] that the transaction body of [SaveHostSoftware] sends
    carries at least one value tuple, and only tuples of the host that is
    saved. *)
Theorem saveBody_inserts_for_its_host (host : Host) (tx : Tx) (st : State)
    (args : list Z) :
  Stmt (InsertHostSoftware args) ∈ trace (saveBody host tx st).2 ->
  Stmt (InsertHostSoftware args) ∈ trace st
  \/ exists ids, ids <> [] /\ args = flatPairs (Host_ID host) ids.
Proof.
  revert args.
  set (P := fun st' : State =>
              forall args, Stmt (InsertHostSoftware args) ∈ trace st' ->
                Stmt (InsertHostSoftware args) ∈ trace st
                \/ exists ids, ids <> [] /\ args = flatPairs (Host_ID host) ids).
  assert (Hst : forall {A} (a : action) (g : M A),
            (forall args, a = Stmt (InsertHostSoftware args) ->
                          exists ids, ids <> [] /\ args = flatPairs (Host_ID host) ids) ->
            (forall st0, trace (g st0).2 = trace st0) ->
            keeps P (roundTrip a ;; g)).
  { intros A a g Ha Hg st0 HP args Hin.
    rewrite statement_trace in Hin by exact Hg.
    apply elem_of_app in Hin as [Hin|Hin]; [apply HP; exact Hin|].
    apply list_elem_of_singleton in Hin. right. apply Ha. symmetry. exact Hin. }
  apply (keeps_saveBody P (Host_ID host)); [..|reflexivity|].
  - intros name version source. apply Hst; [discriminate|reflexivity].
  - intros name version source. apply Hst; [discriminate|].
    intros st0. destruct (existsb _ _); simpl; [reflexivity|].
    unfold bump. simpl. apply trace_write.
  - apply Hst; [discriminate|]. intros st0. simpl. apply trace_write.
  - intros ids. apply Hst; [discriminate|].
    intros st0. destruct ids; simpl; [reflexivity|apply trace_write].
  - intros ids Hne. apply Hst.
    + intros args H. injection H as <-. eauto.
    + intros st0. cbv beta zeta. repeat case_match; simpl; try reflexivity.
      apply trace_write.
  - intros tx'. apply Hst; [discriminate|reflexivity].
  - intros args Hin. left. exact Hin.
Qed.

Lemma saveBody_inserts_for_its_host_witness :
  let st := mkState (db exampleState) (Some (db exampleState)) 2 [] [Begin] in
  Stmt (InsertHostSoftware [7; 2]) ∈ trace (saveBody exampleHost TxHandle st).2
  /\ exists ids, ids <> [] /\ [7; 2] = flatPairs 7 ids.
Proof.
  intros st.
  assert (H : Stmt (InsertHostSoftware [7; 2])
              ∈ trace (saveBody exampleHost TxHandle st).2)
    by (vm_compute; repeat constructor).
  split; [exact H|].
  destruct (saveBody_inserts_for_its_host exampleHost TxHandle st [7; 2] H)
    as [Hold|Hnew]; [|exact Hnew].
  exfalso. apply list_elem_of_singleton in Hold. discriminate.
Defined.

(** ** A failure of the first statement *)

(** X24.  When the store fails the first statement of the transaction body
    of [SaveHostSoftware], the body sends nothing more and writes nothing.
    For a host without software the error is that of the store wrapped as
    "clear join table entries"; otherwise it is wrapped as "load host
    software" and then as "loading current software for host". *)
Theorem saveBody_first_statement_fails (host : Host) (tx : Tx) (st : State) (e : error) :
  fault (hd quiet (script st)) = Some e ->
  exists st',
    saveBody host tx st
    = (Err (if (length (HostSoftware_Software (Host_HostSoftware host)) =? 0)%nat
            then Wrap e "clear join table entries"
            else Wrap (Wrap e "load host software")
                      "loading current software for host"), st')
    /\ trace st'
       = trace st
         ++ [Stmt (if (length (HostSoftware_Software (Host_HostSoftware host)) =? 0)%nat
                   then DeleteHostSoftware (Host_ID host)
                   else SelectHostSoftware (Host_ID host))]
    /\ exists extra, elsewhere extra st st'.
Proof.
  intros Hfault. unfold saveBody.
  destruct (length (HostSoftware_Software (Host_HostSoftware host)) =? 0)%nat.
  - unfold bind, wrapErr, deleteHostSoftware, bind.
    destruct (roundTrip (Stmt (DeleteHostSoftware (Host_ID host))) st) as [r st1] eqn:E.
    apply roundTrip_inv in E as (T & _ & -> & extra & X & _). rewrite Hfault.
    exists st1. split; [reflexivity|]. split; [exact T|eauto].
  - unfold applyChangesForNewSoftware, hostSoftwareFromHostID, bind, wrapErr,
      selectHostSoftware, bind.
    destruct (roundTrip (Stmt (SelectHostSoftware (Host_ID host))) st) as [r st1] eqn:E.
    apply roundTrip_inv in E as (T & _ & -> & extra & X & _). rewrite Hfault.
    exists st1. split; [reflexivity|]. split; [exact T|eauto].
Qed.

Lemma saveBody_first_statement_fails_witness :
  let st := mkState (db exampleState) (Some (db exampleState)) 2
                    [mkEvent [] (Some (StoreError false "gone away"))] [Begin] in
  fault (hd quiet (script st)) = Some (StoreError false "gone away")
  /\ exists st',
       saveBody exampleHost TxHandle st
       = (Err (Wrap (Wrap (StoreError false "gone away") "load host software")
                    "loading current software for host"), st').
Proof.
  intros st. split; [reflexivity|].
  destruct (saveBody_first_statement_fails exampleHost TxHandle st
              (StoreError false "gone away") eq_refl) as (st' & H & _).
  exists st'. exact H.
Defined.

(** * Properties of the pack conversion *)

Module ConvertFacts.

Import Convert.

Lemma digit_range (c : ascii) (d : Z) : digit c = Some d -> 0 <= d <= 9.
Proof.
  unfold digit. destruct (_ && _) eqn:E; [|discriminate].
  intros H. injection H as <-. apply andb_true_iff in E as [E1 E2]. lia.
Qed.

Lemma decimalFrom_ge (cs : string) (n v : Z) :
  0 <= n -> decimalFrom cs n = Some v -> n <= v.
Proof.
  revert n. induction cs as [|c cs IH]; intros n Hn; simpl.
  - intros H. injection H as <-. lia.
  - destruct (digit c) as [d|] eqn:Ed; [|discriminate].
    apply digit_range in Ed. intros H. apply IH in H; lia.
Qed.

(** The loop of [ParseUint] accepts exactly the decimal numerals whose value
    is at most [maxVal], with their value. *)
Lemma parseLoop_accepts (cs : string) (n v : Z) :
  0 <= n <= maxVal ->
  parseLoop cs n = (v, None) <-> decimalFrom cs n = Some v /\ v <= maxVal.
Proof.
  assert (Hc : cutoff = 1844674407370955162) by reflexivity.
  assert (Hm : maxVal = 4294967295) by reflexivity.
  revert n. induction cs as [|c cs IH]; intros n Hn; simpl.
  - split.
    + intros H. injection H as <-. split; [reflexivity|lia].
    + intros [H _]. injection H as <-. reflexivity.
  - destruct (digit c) as [d|] eqn:Ed.
    2:{ split; [discriminate|]. intros [H _]. discriminate. }
    pose proof (digit_range c d Ed) as Hd.
    destruct (n >=? cutoff) eqn:E1; [lia|].
    change (2 ^ 64) with 18446744073709551616.
    rewrite (Z.mod_small (n * 10)) by lia.
    rewrite (Z.mod_small (n * 10 + d)) by lia.
    replace (n * 10 + d <? n * 10) with false by lia. simpl.
    destruct (n * 10 + d >? maxVal) eqn:E2.
    + split; [discriminate|]. intros [H Hv].
      apply decimalFrom_ge in H; lia.
    + replace (10 * n + d) with (n * 10 + d) by lia. apply IH. lia.
Qed.

Lemma parseLoop_rejects (cs : string) (n v : Z) (kind : numErrorKind) :
  parseLoop cs n = (v, Some kind) ->
  (kind = ErrSyntax /\ v = 0) \/ (kind = ErrRange /\ v = maxVal).
Proof.
  revert n. induction cs as [|c cs IH]; intros n; simpl; [discriminate|].
  destruct (digit c); [|intros H; injection H as <- <-; auto].
  destruct (n >=? cutoff); [intros H; injection H as <- <-; auto|].
  destruct (_ || _); [intros H; injection H as <- <-; auto|apply IH].
Qed.

(** [strconv.ParseUint(s, 10, 32)] succeeds exactly on the decimal numerals
    that are not empty and have a value of at most 4294967295, and returns
    that value; on failure its value is 0 for a syntax error and 4294967295
    for a range error. *)
Lemma ParseUint_decimal (s : string) :
  (forall v, ParseUint s = (v, None)
             <-> decimalValue s = Some v /\ v <= 4294967295)
  /\ (forall v err, ParseUint s = (v, Some err) ->
        (err = NumError s ErrSyntax /\ v = 0)
        \/ (err = NumError s ErrRange /\ v = 4294967295)).
Proof.
  split.
  - intros v. unfold ParseUint, decimalValue. destruct s as [|c cs].
    + split; [discriminate|]. intros [H _]. discriminate.
    + pose proof (parseLoop_accepts (String c cs) 0 v) as H.
      destruct (parseLoop (String c cs) 0) as [v' [kind|]] eqn:E.
      * split; [discriminate|]. intros Hd. apply H in Hd; [discriminate|].
        vm_compute. split; discriminate.
      * rewrite <- H by (vm_compute; split; discriminate).
        split; intros Hv; injection Hv as <-; reflexivity.
  - intros v err. unfold ParseUint. destruct s as [|c cs].
    + intros H. injection H as <- <-. auto.
    + destruct (parseLoop (String c cs) 0) as [v' [kind|]] eqn:E; [|discriminate].
      intros H. injection H as <- <-.
      apply parseLoop_rejects in E as [[-> ->]|[-> ->]]; auto.
Qed.

Section Values.

Variable float64 : Type.
Variable uintOfFloat64 : float64 -> Z.

Local Abbreviation intervalOf := (intervalOf float64 uintOfFloat64).
Local Abbreviation convertQueries := (convertQueries float64 uintOfFloat64).
Local Abbreviation specGroupFromPack := (specGroupFromPack float64 uintOfFloat64).

Lemma interval_string_accepted (s : string) (u : Z) :
  intervalOf (DString _ s) = inl u <-> decimalValue s = Some u /\ u <= 4294967295.
Proof.
  destruct (ParseUint_decimal s) as [Hok _]. unfold Convert.intervalOf.
  rewrite <- Hok.
  destruct (ParseUint s) as [v [err|]]; split; intros H; try discriminate;
    injection H as <-; reflexivity.
Qed.

(** X20.  The interval of a pack query, by the dynamic type of the interval
    given.  A string is accepted exactly when it is a decimal numeral that
    is not empty and has a value of at most 4294967295, and gives that
    value; any other string ends the conversion with the error of
    [ParseUint] wrapped as "converting interval from string to uint".  A
    [uint] gives itself, a [float64] its conversion, and a value of any
    other type gives 0. *)
Theorem interval_by_dynamic_type (i : dynamic float64) :
  match i with
  | DString _ s =>
      (forall u, intervalOf i = inl u
                 <-> decimalValue s = Some u /\ u <= 4294967295)
      /\ (forall err, intervalOf i = inr err ->
            exists kind,
              err = Wrap (NumError s kind) "converting interval from string to uint")
  | DUint _ u => intervalOf i = inl u
  | DFloat64 _ f => intervalOf i = inl (uintOfFloat64 f)
  | DOther _ => intervalOf i = inl 0
  end.
Proof.
  destruct i as [s|u|f|]; try reflexivity.
  destruct (ParseUint_decimal s) as [Hok Herr]. unfold Convert.intervalOf.
  destruct (ParseUint s) as [v [err|]] eqn:E.
  - split.
    + intros u. split; [discriminate|].
      intros Hd. apply Hok in Hd. discriminate.
    + intros err' H. injection H as <-.
      destruct (Herr v err eq_refl) as [[-> _]|[-> _]]; eauto.
  - split.
    + intros u. rewrite <- Hok. split; intros H; injection H as <-; reflexivity.
    + discriminate.
Qed.

(** The query spec and the pack query that the loop appends for the query
    [query] named [name] with the interval [interval]. *)
Lemma convertQueries_inl (queries : list (string * PermissiveQueryContent float64))
    (specs specs' : list QuerySpec) (packQueries packQueries' : list PackSpecQuery) :
  convertQueries queries specs packQueries = inl (specs', packQueries') ->
  specs' = specs
           ++ ((fun nq => mkQuerySpec nq.1
                            (PermissiveQueryContent_Description _ nq.2)
                            (PermissiveQueryContent_Query _ nq.2)) <$> queries)
  /\ exists added,
       packQueries' = packQueries ++ added
       /\ Forall2 (fun nq pq =>
                     intervalOf (PermissiveQueryContent_Interval _ nq.2)
                     = inl (PackSpecQuery_Interval pq)
                     /\ pq = mkPackSpecQuery nq.1 nq.1
                               (PermissiveQueryContent_Description _ nq.2)
                               (PackSpecQuery_Interval pq)
                               (PermissiveQueryContent_Snapshot _ nq.2)
                               (PermissiveQueryContent_Removed _ nq.2)
                               (PermissiveQueryContent_Shard _ nq.2)
                               (PermissiveQueryContent_Platform _ nq.2)
                               (PermissiveQueryContent_Version _ nq.2))
                  queries added.
Proof.
  revert specs packQueries.
  induction queries as [|[name query] rest IH]; intros specs packQueries; simpl.
  - intros H. injection H as <- <-. rewrite app_nil_r. split; [reflexivity|].
    exists []. rewrite app_nil_r. split; [reflexivity|constructor].
  - destruct (intervalOf (PermissiveQueryContent_Interval _ query))
      as [interval|err] eqn:E; [|discriminate].
    intros H. apply IH in H as (-> & added & -> & HF).
    split; [rewrite <- app_assoc; reflexivity|].
    eexists (_ :: added). split; [rewrite <- app_assoc; reflexivity|].
    constructor; [|exact HF]. simpl. split; [exact E|reflexivity].
Qed.

Lemma convertQueries_inr (queries : list (string * PermissiveQueryContent float64))
    (specs : list QuerySpec) (packQueries : list PackSpecQuery) (err : error) :
  convertQueries queries specs packQueries = inr err
  <-> exists before nq after,
        queries = before ++ nq :: after
        /\ intervalOf (PermissiveQueryContent_Interval _ nq.2) = inr err
        /\ Forall (fun nq' => exists i,
                      intervalOf (PermissiveQueryContent_Interval _ nq'.2) = inl i)
                   before.
Proof.
  revert specs packQueries.
  induction queries as [|[name query] rest IH]; intros specs packQueries; simpl.
  - split; [discriminate|]. intros (before & nq & after & H & _).
    destruct before; discriminate.
  - destruct (intervalOf (PermissiveQueryContent_Interval _ query))
      as [interval|err'] eqn:E.
    + rewrite IH. split.
      * intros (before & nq & after & -> & Herr & Hbefore).
        exists ((name, query) :: before), nq, after.
        split; [reflexivity|]. split; [exact Herr|].
        constructor; [simpl; eauto|exact Hbefore].
      * intros (before & nq & after & Heq & Herr & Hbefore).
        destruct before as [|b before]; simpl in Heq.
        -- injection Heq as <- <-. simpl in Herr. congruence.
        -- injection Heq as <- ->. apply Forall_cons in Hbefore as [_ Hbefore].
           exists before, nq, after. auto.
    + split.
      * intros H. injection H as <-. exists [], (name, query), rest. simpl.
        split; [reflexivity|]. split; [exact E|constructor].
      * intros (before & nq & after & Heq & Herr & Hbefore).
        destruct before as [|b before]; simpl in Heq.
        -- injection Heq as <- <-. simpl in Herr. congruence.
        -- injection Heq as <- ->. apply Forall_cons in Hbefore as [[i Hi] _].
           simpl in Hi. congruence.
Qed.

Lemma Forall2_elem_l {A B} (R : A -> B -> Prop) (l : list A) (k : list B) (x : A) :
  Forall2 R l k -> x ∈ l -> exists y, y ∈ k /\ R x y.
Proof.
  induction 1 as [|a b l k Hab HF IH]; intros Hx.
  - apply elem_of_nil in Hx. contradiction.
  - apply elem_of_cons in Hx as [->|Hx].
    + exists b. split; [apply elem_of_cons; left; reflexivity|exact Hab].
    + destruct (IH Hx) as (y & Hy & HR). exists y.
      split; [apply elem_of_cons; right; exact Hy|exact HR].
Qed.

Lemma Forall2_fmap_eq {A B C} (R : A -> B -> Prop) (f : A -> C) (g : B -> C)
    (l : list A) (k : list B) :
  (forall a b, R a b -> g b = f a) -> Forall2 R l k -> g <$> k = f <$> l.
Proof.
  intros HR. induction 1 as [|a b l k Hab HF IH]; [reflexivity|].
  rewrite !fmap_cons, IH, (HR a b Hab). reflexivity.
Qed.

(** X21.  A conversion that succeeds gives one pack, with the name asked
    for, and no label; it gives one query spec and one pack query for each
    query of the input pack and none else, the two in the same order and
    under the name of the query, which is also the pack query's query
    name. *)
Theorem specGroupFromPack_one_spec_per_query (name : string)
    (inputPack : PermissivePackContent float64) (specs : specGroup) :
  specGroupFromPack name inputPack = inl specs ->
  specGroup_Labels specs = []
  /\ exists pack,
       specGroup_Packs specs = [pack]
       /\ PackSpec_Name pack = name
       /\ PackSpecQuery_Name <$> PackSpec_Queries pack
          = QuerySpec_Name <$> specGroup_Queries specs
       /\ Forall (fun pq => PackSpecQuery_QueryName pq = PackSpecQuery_Name pq)
                 (PackSpec_Queries pack)
       /\ NoDup (QuerySpec_Name <$> specGroup_Queries specs)
       /\ length (specGroup_Queries specs)
          = size (PermissivePackContent_Queries _ inputPack)
       /\ forall n, n ∈ QuerySpec_Name <$> specGroup_Queries specs
                    <-> is_Some (PermissivePackContent_Queries _ inputPack !! n).
Proof.
  unfold Convert.specGroupFromPack.
  set (m := PermissivePackContent_Queries _ inputPack).
  destruct (convertQueries (map_to_list m) [] []) as [[qs pqs]|err] eqn:E; [|discriminate].
  intros H. injection H as <-. simpl.
  apply convertQueries_inl in E as (-> & added & -> & HF). simpl.
  assert (Hnames : QuerySpec_Name
                   <$> ((fun nq => mkQuerySpec nq.1
                                     (PermissiveQueryContent_Description _ nq.2)
                                     (PermissiveQueryContent_Query _ nq.2))
                        <$> map_to_list m)
                   = (map_to_list m).*1).
  { rewrite <- list_fmap_compose. reflexivity. }
  split; [reflexivity|]. eexists. split; [reflexivity|]. simpl.
  split; [reflexivity|]. rewrite Hnames.
  split.
  { apply (Forall2_fmap_eq _ fst PackSpecQuery_Name _ _) in HF; [exact HF|].
    intros nq pq [_ ->]. reflexivity. }
  split.
  { apply Forall_forall. intros pq Hpq.
    assert (Hswap : Forall2 (fun pq nq => PackSpecQuery_QueryName pq = PackSpecQuery_Name pq)
                            added (map_to_list m)).
    { apply Forall2_flip. eapply Forall2_impl; [exact HF|].
      intros nq pq' [_ ->]. reflexivity. }
    destruct (Forall2_elem_l _ _ _ pq Hswap Hpq) as (_ & _ & Hgoal). exact Hgoal. }
  split; [apply NoDup_fst_map_to_list|].
  split; [rewrite length_fmap; apply length_map_to_list|].
  intros n. split.
  - intros Hn. apply list_elem_of_fmap in Hn as ([n' q] & -> & Hnq).
    apply elem_of_map_to_list in Hnq. simpl. eauto.
  - intros [q Hq]. apply list_elem_of_fmap. exists (n, q).
    split; [reflexivity|]. apply elem_of_map_to_list. exact Hq.
Qed.

(** X22.  A conversion that succeeds copies every query of the input pack:
    its query spec carries the query's text and description, and its pack
    query carries the description, the interval that the query's interval
    converts to, and the snapshot, removed, shard, platform and version
    settings of the query. *)
Theorem specGroupFromPack_copies_each_query (name : string)
    (inputPack : PermissivePackContent float64) (specs : specGroup)
    (n : string) (q : PermissiveQueryContent float64) :
  specGroupFromPack name inputPack = inl specs ->
  PermissivePackContent_Queries _ inputPack !! n = Some q ->
  mkQuerySpec n (PermissiveQueryContent_Description _ q)
              (PermissiveQueryContent_Query _ q) ∈ specGroup_Queries specs
  /\ exists interval pack,
       intervalOf (PermissiveQueryContent_Interval _ q) = inl interval
       /\ pack ∈ specGroup_Packs specs
       /\ mkPackSpecQuery n n (PermissiveQueryContent_Description _ q) interval
            (PermissiveQueryContent_Snapshot _ q) (PermissiveQueryContent_Removed _ q)
            (PermissiveQueryContent_Shard _ q) (PermissiveQueryContent_Platform _ q)
            (PermissiveQueryContent_Version _ q) ∈ PackSpec_Queries pack.
Proof.
  unfold Convert.specGroupFromPack.
  set (m := PermissivePackContent_Queries _ inputPack).
  destruct (convertQueries (map_to_list m) [] []) as [[qs pqs]|err] eqn:E; [|discriminate].
  intros H Hq. injection H as <-. simpl.
  apply convertQueries_inl in E as (-> & added & -> & HF). simpl.
  apply elem_of_map_to_list in Hq.
  split.
  - apply list_elem_of_fmap. exists (n, q). split; [reflexivity|exact Hq].
  - destruct (Forall2_elem_l _ _ _ (n, q) HF Hq) as (pq & Hpq & Hi & Heq).
    simpl in Hi, Heq.
    exists (PackSpecQuery_Interval pq). eexists.
    split; [exact Hi|]. split; [apply list_elem_of_singleton; reflexivity|].
    simpl. rewrite <- Heq. exact Hpq.
Qed.

(** X23.  Whatever the order the queries of the input pack are visited in,
    the loop of the conversion fails exactly when some query of the pack has
    a string for interval that is not a non-empty decimal numeral of value
    at most 4294967295; so does [specGroupFromPack], which returns the error
    of the loop over the queries of the pack.  The error is then the error
    of [ParseUint] on the interval of such a query, wrapped as "converting
    interval from string to uint": the query is the first one in the order
    of the visit that has such an interval. *)
Theorem specGroupFromPack_fails_on_a_bad_interval (name : string)
    (inputPack : PermissivePackContent float64)
    (order : list (string * PermissiveQueryContent float64)) :
  order ≡ₚ map_to_list (PermissivePackContent_Queries _ inputPack) ->
  ((exists err, convertQueries order [] [] = inr err)
   <-> exists n q s,
         PermissivePackContent_Queries _ inputPack !! n = Some q
         /\ badInterval _ q s)
  /\ ((exists err, specGroupFromPack name inputPack = inr err)
      <-> exists n q s,
            PermissivePackContent_Queries _ inputPack !! n = Some q
            /\ badInterval _ q s)
  /\ (forall err,
        convertQueries order [] [] = inr err ->
        exists before n q after s v kind,
          order = before ++ (n, q) :: after
          /\ Forall (fun nq => forall s', ¬ badInterval _ nq.2 s') before
          /\ PermissivePackContent_Queries _ inputPack !! n = Some q
          /\ badInterval _ q s
          /\ ParseUint s = (v, Some (NumError s kind))
          /\ err = Wrap (NumError s kind) "converting interval from string to uint")
  /\ (forall err,
        specGroupFromPack name inputPack = inr err
        <-> convertQueries
              (map_to_list (PermissivePackContent_Queries _ inputPack)) [] []
            = inr err).
Proof.
  set (m := PermissivePackContent_Queries _ inputPack). intros Hperm.
  assert (Hbad : forall i err, intervalOf i = inr err ->
            exists s v kind,
              i = DString _ s
              /\ ParseUint s = (v, Some (NumError s kind))
              /\ err = Wrap (NumError s kind) "converting interval from string to uint"
              /\ ¬ (exists u, decimalValue s = Some u /\ u <= 4294967295)).
  { intros i err Hi. destruct i as [s|u|f|]; try discriminate.
    destruct (ParseUint_decimal s) as [Hok Herr]. unfold Convert.intervalOf in Hi.
    destruct (ParseUint s) as [v [e|]] eqn:E; [|discriminate].
    injection Hi as <-.
    destruct (Herr v e eq_refl) as [[-> _]|[-> _]]; exists s, v; eexists;
      (split; [reflexivity|]); (split; [exact E|]); (split; [reflexivity|]);
      intros [u Hu]; apply Hok in Hu; discriminate. }
  assert (Hgood : forall (q : PermissiveQueryContent float64) i,
            intervalOf (PermissiveQueryContent_Interval _ q) = inl i ->
            forall s, ¬ badInterval _ q s).
  { intros q i Hi s [Hs Hno]. rewrite Hs in Hi.
    apply Hno. exists i. apply interval_string_accepted. exact Hi. }
  assert (Hfirst : forall l err, convertQueries l [] [] = inr err ->
            exists before n q after s v kind,
              l = before ++ (n, q) :: after
              /\ Forall (fun nq => forall s', ¬ badInterval _ nq.2 s') before
              /\ badInterval _ q s
              /\ ParseUint s = (v, Some (NumError s kind))
              /\ err = Wrap (NumError s kind) "converting interval from string to uint").
  { intros l err H.
    apply convertQueries_inr in H as (before & [n q] & after & Heq & Hi & Hbefore).
    destruct (Hbad _ _ Hi) as (s & v & kind & Hs & Hp & He & Hno). simpl in Hs.
    exists before, n, q, after, s, v, kind.
    split; [exact Heq|]. split; [|split; [split; assumption|split; assumption]].
    eapply Forall_impl; [exact Hbefore|].
    intros nq [i Hnq]. exact (Hgood _ i Hnq). }
  assert (Hfails : forall l, l ≡ₚ map_to_list m ->
            (exists err, convertQueries l [] [] = inr err)
            <-> exists n q s, m !! n = Some q /\ badInterval _ q s).
  { intros l Hl. split.
    - intros [err H].
      destruct (Hfirst l err H) as (before & n & q & after & s & _ & _ & Heq & _ & Hq & _).
      exists n, q, s. split; [|exact Hq].
      apply elem_of_map_to_list. rewrite <- Hl, Heq. apply elem_of_app. right.
      apply elem_of_cons. left. reflexivity.
    - intros (n & q & s & Hq & Hs).
      destruct (convertQueries l [] []) as [[qs pqs]|err'] eqn:E; [|eauto].
      exfalso. apply convertQueries_inl in E as (_ & added & _ & HF).
      apply elem_of_map_to_list in Hq. rewrite <- Hl in Hq.
      destruct (Forall2_elem_l _ _ _ (n, q) HF Hq) as (pq & _ & Hi & _).
      exact (Hgood q _ Hi s Hs). }
  assert (Hmodel : forall err,
            specGroupFromPack name inputPack = inr err
            <-> convertQueries (map_to_list m) [] [] = inr err).
  { intros err. unfold Convert.specGroupFromPack. fold m.
    destruct (convertQueries (map_to_list m) [] []) as [[qs pqs]|err'];
      split; intros H; try discriminate; injection H as <-; reflexivity. }
  split; [exact (Hfails order Hperm)|].
  split.
  { rewrite <- (Hfails (map_to_list m)) by reflexivity.
    split; intros [err H]; exists err; apply Hmodel; exact H. }
  split; [|exact Hmodel].
  intros err H.
  destruct (Hfirst order err H)
    as (before & n & q & after & s & v & kind & Heq & Hbefore & Hq & Hp & He).
  exists before, n, q, after, s, v, kind.
  split; [exact Heq|]. split; [exact Hbefore|]. split; [|auto].
  apply elem_of_map_to_list. rewrite <- Hperm, Heq. apply elem_of_app. right.
  apply elem_of_cons. left. reflexivity.
Qed.

End Values.

Lemma specGroupFromPack_one_spec_per_query_witness :
  exists specs,
    specGroupFromPack Z (fun z => z) "osquery-monitoring" examplePack = inl specs
    /\ specGroup_Labels specs = []
    /\ length (specGroup_Queries specs) = 2%nat.
Proof.
  destruct (specGroupFromPack Z (fun z => z) "osquery-monitoring" examplePack)
    as [specs|err] eqn:E; [|vm_compute in E; discriminate].
  exists specs. split; [reflexivity|].
  destruct (specGroupFromPack_one_spec_per_query Z (fun z => z) _ _ specs E)
    as (Hlabels & pack & _ & _ & _ & _ & _ & Hlen & _).
  split; [exact Hlabels|]. rewrite Hlen. vm_compute. reflexivity.
Defined.

Lemma specGroupFromPack_copies_each_query_witness :
  exists specs,
    specGroupFromPack Z (fun z => z) "osquery-monitoring" examplePack = inl specs
    /\ mkQuerySpec "uptime" "time up" "select * from uptime" ∈ specGroup_Queries specs.
Proof.
  destruct (specGroupFromPack Z (fun z => z) "osquery-monitoring" examplePack)
    as [specs|err] eqn:E; [|vm_compute in E; discriminate].
  exists specs. split; [reflexivity|].
  apply (specGroupFromPack_copies_each_query Z (fun z => z) _ _ specs "uptime"
           (mkPermissiveQueryContent Z "select * from uptime" "time up"
              (DString Z "3600") None None None (Some true) None) E).
  vm_compute. reflexivity.
Defined.

Lemma specGroupFromPack_fails_on_a_bad_interval_witness :
  let order := reverse (map_to_list (PermissivePackContent_Queries Z badPack)) in
  order ≡ₚ map_to_list (PermissivePackContent_Queries Z badPack)
  /\ exists err, convertQueries Z (fun z => z) order [] [] = inr err.
Proof.
  intros order.
  assert (H : order ≡ₚ map_to_list (PermissivePackContent_Queries Z badPack))
    by apply reverse_Permutation.
  split; [exact H|].
  apply (specGroupFromPack_fails_on_a_bad_interval Z (fun z => z) "osquery-monitoring"
           badPack order H).
  exists "hourly",
         (mkPermissiveQueryContent Z "select * from time" "the time"
            (DString Z "1h") None None None None None),
         "1h".
  split; [vm_compute; reflexivity|].
  split; [reflexivity|].
  intros [u [Hu _]]. vm_compute in Hu. discriminate.
Defined.

End ConvertFacts.
